(** * Facebook photo comment scraper and viewer

    Shallow embedding of the bookmarklet scraper ([findCoreContainers],
    [scrapeMainPhoto], [scrapePostDate], [scrapePostAuthorAndMeta],
    [scrapeEngagement], [scrapeCommentsAndAvatars], [runScraper]) and of
    the viewer's [flattenComments], [updateOverlayComments],
    [handleNextComment] and [handlePreviousComment].

    JavaScript objects that are mutated after being stored elsewhere (the
    comment objects held at once by [nestedComments], by a parent's
    [replies] array and by [commentStack]) live in an explicit store; an
    object reference is its index in the store. *)

From stdpp Require Import gmap strings list sorting.
From Stdlib Require Import ZArith Ascii Lia.

Set Warnings "-register-all".

(** ** List helpers *)

Fixpoint take_while {A} (p : A → bool) (l : list A) : list A :=
  match l with
  | [] => []
  | x :: l' => if p x then x :: take_while p l' else []
  end.

Fixpoint drop_while {A} (p : A → bool) (l : list A) : list A :=
  match l with
  | [] => []
  | x :: l' => if p x then drop_while p l' else l
  end.

(** ** The comment objects and their store *)

Module Tree.

(** The object literal [{ name: authorName, message: message }], with the
    optional [replies] property holding references to other comment
    objects. [None] is an absent property, [Some []] an empty array. *)
Record CommentObject := mkObj {
  name : string;
  message : string;
  replies : option (list nat)
}.

(** Store of comment objects; the reference of an object is its index. *)
Abbreviation Store := (list CommentObject).

(** The exported [Comment] of the JSON schema, as the viewer reads it back
    from the serialised record. *)
Inductive Comment := mkComment {
  c_name : string;
  c_message : string;
  c_replies : option (list Comment)
}.

(** One element of [rawComments] before its object is allocated: the
    fields of [commentObject] and the [depth] counted by the ancestor
    loop. *)
Record RawComment := mkRaw {
  raw_name : string;
  raw_message : string;
  depth : nat
}.

(** The object a raw comment starts as: no [replies] property. *)
Definition new_object (r : RawComment) : CommentObject :=
  mkObj (raw_name r) (raw_message r) None.

(** [rawComments] as the loop sees it: pairs of an object reference and a
    depth, the objects being allocated consecutively from [base]. *)
Fixpoint items_from (base : nat) (rs : list RawComment) : list (nat * nat) :=
  match rs with
  | [] => []
  | r :: rs' => (base, depth r) :: items_from (S base) rs'
  end.

(** State of the [forEach] loop that nests the comments. The head of
    [commentStack] is the top of the JavaScript array used as a stack. *)
Record BuildState := mkState {
  store : Store;
  nestedComments : list nat;
  commentStack : list (nat * nat)
}.

(** [while (commentStack.length > 0 && depth <= top.depth) commentStack.pop()] *)
Fixpoint pop_while (d : nat) (stack : list (nat * nat)) : list (nat * nat) :=
  match stack with
  | [] => []
  | (o, d') :: rest => if d <=? d' then pop_while d rest else stack
  end.

(** [if (!parent.replies) parent.replies = []; parent.replies.push(child)] *)
Definition add_reply (child : nat) (parent : CommentObject) : CommentObject :=
  mkObj (name parent) (message parent)
        (Some (default [] (replies parent) ++ [child])).

(** Body of [rawComments.forEach(item => ...)]. *)
Definition step (st : BuildState) (item : nat * nat) : BuildState :=
  let '(obj, d) := item in
  let stack := pop_while d (commentStack st) in
  match stack with
  | (parent, _) :: _ =>
      mkState (alter (add_reply obj) parent (store st))
              (nestedComments st)
              ((obj, d) :: stack)
  | [] =>
      mkState (store st) (nestedComments st ++ [obj]) ((obj, d) :: stack)
  end.

(** The nesting loop over all raw comments, from empty [nestedComments]
    and [commentStack]. *)
Definition nest (rs : list RawComment) : BuildState :=
  fold_left step (items_from 0 rs) (mkState (new_object <$> rs) [] []).

(** Sequencing of a store-transforming action over an array of
    references, stopping at the first failure. *)
Fixpoint for_each (f : Store → nat → option Store) (h : Store)
    (refs : list nat) : option Store :=
  match refs with
  | [] => Some h
  | r :: refs' =>
      match f h r with
      | Some h' => for_each f h' refs'
      | None => None
      end
  end.

(** [delete comment.replies] *)
Definition delete_replies (o : CommentObject) : CommentObject :=
  mkObj (name o) (message o) None.

(** [removeEmptyReplies(comments)]. The recursion of the source follows the
    object graph, so the embedding takes fuel; [None] is fuel exhaustion
    or a dangling reference. *)
Fixpoint removeEmptyReplies (fuel : nat) (h : Store) (comments : list nat)
    : option Store :=
  match fuel with
  | O => None
  | S fuel' =>
      for_each (fun h c =>
        match h !! c with
        | None => None
        | Some o =>
            match replies o with
            | Some (r :: rs) => removeEmptyReplies fuel' h (r :: rs)
            | _ => Some (alter delete_replies c h)
            end
        end) h comments
  end.

(** Sequencing of an optional result over a list. *)
Fixpoint traverse {A B} (f : A → option B) (l : list A) : option (list B) :=
  match l with
  | [] => Some []
  | x :: l' =>
      match f x with
      | Some y =>
          match traverse f l' with
          | Some ys => Some (y :: ys)
          | None => None
          end
      | None => None
      end
  end.

(** The tree value denoted by a reference: what [JSON.stringify] writes
    for the object and the viewer's [JSON.parse] reads back. *)
Fixpoint serialize (fuel : nat) (h : Store) (ref : nat) : option Comment :=
  match fuel with
  | O => None
  | S fuel' =>
      match h !! ref with
      | None => None
      | Some o =>
          match replies o with
          | None => Some (mkComment (name o) (message o) None)
          | Some rs =>
              match traverse (serialize fuel' h) rs with
              | Some cs => Some (mkComment (name o) (message o) (Some cs))
              | None => None
              end
          end
      end
  end.

(** Lines 316-352 of the scraper on a given [rawComments], with the result
    read as a tree: nest, strip empty [replies], then follow the object
    graph from [nestedComments]. The recursion depth of the source is at
    most the number of objects, which bounds the fuel. *)
Definition build_comments (rs : list RawComment) : option (list Comment) :=
  let st := nest rs in
  let fuel := S (length rs) in
  match removeEmptyReplies fuel (store st) (nestedComments st) with
  | Some h => traverse (serialize fuel h) (nestedComments st)
  | None => None
  end.

(** ** The viewer's flattening (script.js) *)

(** [{ ...comment, level }] *)
Record FlatComment := mkFlat {
  flat_comment : Comment;
  level : nat
}.

(** [flattenComments(comments, level)] for a single comment, then for the
    array. *)
Fixpoint flatten_comment (lvl : nat) (c : Comment) : list FlatComment :=
  mkFlat c lvl ::
  match c_replies c with
  | Some (r :: rs) => flat_map (flatten_comment (S lvl)) (r :: rs)
  | _ => []
  end.

Definition flattenComments (comments : list Comment) (lvl : nat)
    : list FlatComment :=
  flat_map (flatten_comment lvl) comments.

(** The depth-tagged record a flattened comment stands for. *)
Definition raw_of_flat (f : FlatComment) : RawComment :=
  mkRaw (c_name (flat_comment f)) (c_message (flat_comment f)) (level f).

End Tree.

(** ** JavaScript strings, numbers and the regular expressions used

    A string is a sequence of code units; the embedding covers code units
    below 256, one [ascii] each, so [String.length] is the JavaScript
    [length]. *)

Module JS.

Definition chars : string → list ascii := String.list_ascii_of_string.
Definition str : list ascii → string := String.string_of_list_ascii.

(** Code units below 256 that are WhiteSpace or LineTerminator in
    ECMAScript: TAB, LF, VT, FF, CR, SP and NBSP. *)
Definition is_space (c : ascii) : bool :=
  match c with
  | "009" | "010" | "011" | "012" | "013" | " " | "160" => true
  | _ => false
  end%char.

(** The characters [.] does not match. *)
Definition is_line_terminator (c : ascii) : bool :=
  match c with
  | "010" | "013" => true
  | _ => false
  end%char.

(** [\d] *)
Definition is_digit (c : ascii) : bool :=
  match c with
  | "0" | "1" | "2" | "3" | "4" | "5" | "6" | "7" | "8" | "9" => true
  | _ => false
  end%char.

Definition digit_value (c : ascii) : Z :=
  Z.of_N (Ascii.N_of_ascii c) - 48.

(** [s.trim()] *)
Definition trim (s : string) : string :=
  str (rev (drop_while is_space (rev (drop_while is_space (chars s))))).

(** [/\d/.test(s)] *)
Definition has_digit (s : string) : bool := existsb is_digit (chars s).

(** [/^\d+$/.test(s)] *)
Definition all_digits (s : string) : bool :=
  match chars s with
  | [] => false
  | c :: l => forallb is_digit (c :: l)
  end.

(** [s.match(/\d+/g)]: the maximal runs of digits from left to right; the
    empty list stands for the [null] of a failed match. [cur] is the run
    being read, reversed. *)
Fixpoint digit_runs_from (cur : list ascii) (l : list ascii) : list string :=
  match l with
  | [] =>
      match cur with
      | [] => []
      | _ :: _ => [str (rev cur)]
      end
  | c :: l' =>
      if is_digit c then digit_runs_from (c :: cur) l'
      else
        match cur with
        | [] => digit_runs_from [] l'
        | _ :: _ => str (rev cur) :: digit_runs_from [] l'
        end
  end.

Definition digit_runs (s : string) : list string := digit_runs_from [] (chars s).

(** A JavaScript number as far as the scraper produces them: [NaN], an
    infinity, or a double whose value is the integer [z]. The sign of a
    zero is not kept. *)
Inductive number := NaN | Infinity (negative : bool) | Num (z : Z).

(** The Number value of a non-negative integer [n]: the nearest double,
    ties to the even significand of 53 bits, and [Infinity] from 2^1024
    on. *)
Definition nearest_double (n : Z) : number :=
  if (n <? 2 ^ 53)%Z then Num n
  else
    let e := (Z.log2 n - 52)%Z in
    let q := Z.shiftr n e in
    let r := (n mod 2 ^ e)%Z in
    let half := (2 ^ (e - 1))%Z in
    let q' := if (half <? r)%Z || ((r =? half)%Z && Z.odd q)
              then (q + 1)%Z else q in
    let v := (q' * 2 ^ e)%Z in
    if (2 ^ 1024 <=? v)%Z then Infinity false else Num v.

Definition negate (x : number) : number :=
  match x with
  | NaN => NaN
  | Infinity negative => Infinity (negb negative)
  | Num z => Num (- z)
  end.

(** [parseInt(s, 10)]: leading white space, a sign, then the longest run
    of digits, read as an exact integer and rounded to a Number. (The
    language lets an engine take the digits after the twentieth for
    zeros; the engines round the exact integer.) *)
Definition parseInt (s : string) : number :=
  let l := drop_while is_space (chars s) in
  let '(negative, l) :=
    match l with
    | "-"%char :: l' => (true, l')
    | "+"%char :: l' => (false, l')
    | _ => (false, l)
    end in
  match take_while is_digit l with
  | [] => NaN
  | d :: ds =>
      let mathInt :=
        fold_left (λ acc c, 10 * acc + digit_value c)%Z (d :: ds) 0%Z in
      if negative then negate (nearest_double mathInt)
      else nearest_double mathInt
  end.

(** [x || 0] on a number: [NaN] and zero are falsy. *)
Definition or_zero (x : number) : number :=
  match x with
  | NaN => Num 0
  | _ => x
  end.

(** A number that is not [NaN] and not below zero. *)
Definition not_negative (x : number) : Prop :=
  match x with
  | NaN => False
  | Infinity negative => negative = false
  | Num z => (0 ≤ z)%Z
  end.

Fixpoint starts_with (p l : list ascii) : bool :=
  match p, l with
  | [], _ => true
  | _ :: _, [] => false
  | a :: p', b :: l' => Ascii.eqb a b && starts_with p' l'
  end.

(** Some suffix of [l] starts with [p]. *)
Fixpoint contains (p l : list ascii) : bool :=
  starts_with p l ||
  match l with
  | [] => false
  | _ :: l' => contains p l'
  end.

(** Case folding of the [i] flag on the letters A-Z. *)
Definition to_lower (c : ascii) : ascii :=
  let n := Ascii.N_of_ascii c in
  if ((65 <=? n) && (n <=? 90))%N then Ascii.ascii_of_N (n + 32) else c.

(** [/comment/i.test(s)] *)
Definition mentions_comment (s : string) : bool :=
  contains (chars "comment") (map to_lower (chars s)).

(** [s.replace(/,/g, "")] *)
Definition strip_commas (s : string) : string :=
  str (List.filter (λ c, negb (Ascii.eqb c ","%char)) (chars s)).

(** *** [/(.+) and ([\d,]+) others?/] *)

(** The class [[\d,]]. *)
Definition is_count (c : ascii) : bool := is_digit c || Ascii.eqb c ","%char.

(** [likers_tail l] matches [" and ([\d,]+) others?"] at the start of [l]
    and returns the second group. The group is the whole run of digits and
    commas: a shorter one would be followed by a digit or comma, not by the
    space of [" other"]. *)
Definition likers_tail (l : list ascii) : option (list ascii) :=
  if starts_with (chars " and ") l then
    let rest := drop 5 l in
    match take_while is_count rest with
    | [] => None
    | d :: ds =>
        if starts_with (chars " other") (drop_while is_count rest)
        then Some (d :: ds) else None
    end
  else None.

(** The greedy first group from a fixed start: the longest non-empty run
    without line terminators after which the tail matches. [acc] is the
    part of the group already read, reversed. *)
Fixpoint likers_group (acc : list ascii) (l : list ascii)
    : option (list ascii * list ascii) :=
  match l with
  | [] => None
  | c :: l' =>
      if is_line_terminator c then None
      else
        match likers_group (c :: acc) l' with
        | Some r => Some r
        | None =>
            match likers_tail l' with
            | Some count => Some (rev (c :: acc), count)
            | None => None
            end
        end
  end.

(** The match from the leftmost start that admits one. *)
Fixpoint likers_search (l : list ascii) : option (list ascii * list ascii) :=
  match likers_group [] l with
  | Some r => Some r
  | None =>
      match l with
      | [] => None
      | _ :: l' => likers_search l'
      end
  end.

(** [s.match(/(.+) and ([\d,]+) others?/)]: groups 1 and 2. *)
Definition match_likers (s : string) : option (string * string) :=
  match likers_search (chars s) with
  | Some (g1, g2) => Some (str g1, str g2)
  | None => None
  end.

(** The word that ends the pattern, in the two spellings [s?] allows. *)
Definition others (plural : bool) : list ascii :=
  chars (if plural then " others" else " other").

(** *** [/by (.*?)(?: to .*'s comment| \d+)/] *)

(** [.*] followed by [p]. *)
Fixpoint dots_then (p l : list ascii) : bool :=
  starts_with p l ||
  match l with
  | [] => false
  | c :: l' => negb (is_line_terminator c) && dots_then p l'
  end.

(** The non-capturing alternative at the start of [l]. *)
Definition author_end (l : list ascii) : bool :=
  (starts_with (chars " to ") l && dots_then (chars "'s comment") (drop 4 l))
  || match l with
     | " "%char :: d :: _ => is_digit d
     | _ => false
     end.

(** The lazy group: the shortest run without line terminators after which
    the alternative matches. *)
Fixpoint author_group (acc : list ascii) (l : list ascii)
    : option (list ascii) :=
  if author_end l then Some (rev acc)
  else
    match l with
    | [] => None
    | c :: l' =>
        if is_line_terminator c then None else author_group (c :: acc) l'
    end.

Fixpoint author_search (l : list ascii) : option (list ascii) :=
  match (if starts_with (chars "by ") l then author_group [] (drop 3 l)
         else None) with
  | Some g => Some g
  | None =>
      match l with
      | [] => None
      | _ :: l' => author_search l'
      end
  end.

(** [s.match(/by (.*?)(?: to .*'s comment| \d+)/)]: group 1. *)
Definition match_author (s : string) : option string :=
  str <$> author_search (chars s).

(** No space of the text is directly followed by a digit. *)
Fixpoint no_space_digit (l : list ascii) : bool :=
  match l with
  | [] => true
  | c :: l' =>
      match l' with
      | d :: _ => negb (Ascii.eqb c " "%char && is_digit d)
      | [] => true
      end && no_space_digit l'
  end.

End JS.

(** ** The scraper's extractors

    A container is represented by what the extractor asks of it: the
    results of its [querySelector] calls, its text, its bounding boxes. *)

Module Scraper.
Import JS Tree.

(** *** [scrapePostDate] *)

(** A [span] inside the date link: its [textContent] and the [top] and
    [left] of its bounding rectangle, in whole pixels. *)
Record Span := mkSpan {
  span_textContent : string;
  span_top : Z;
  span_left : Z
}.

(** The date permalink: its identity as an element, its [textContent] and
    its descendant [span]s in document order. *)
Record Anchor := mkAnchor {
  anchor_id : nat;
  anchor_textContent : string;
  anchor_spans : list Span
}.

(** [{ text: span.textContent, y: rect.top, x: rect.left }] *)
Record Glyph := mkGlyph {
  text : string;
  y : Z;
  x : Z
}.

Definition glyph_of (s : Span) : Glyph :=
  mkGlyph (span_textContent s) (span_top s) (span_left s).

(** The comparator handed to [sort]. *)
Definition compare_glyphs (a b : Glyph) : Z :=
  if (Z.abs (y a - y b) >? 5)%Z then (y a - y b)%Z else (x a - x b)%Z.

(** [Array.prototype.sort] with a comparator. Where the comparator is
    consistent the language fixes the result: the stable sorted order.
    The comparator above is not consistent on every input, and there the
    order is the engine's; the definitions below follow the merge sort of
    V8 on an array shorter than 64 elements, which is one run: the array
    keeps its leading run (reversed when strictly descending), and every
    later element is placed in it by binary search. (A longer array is
    merged from several such runs, with the same result wherever the
    comparator is consistent.) *)

(** The number of elements of [l] that continue the run ending in
    [previous]. *)
Fixpoint run_rest {A} (cmp : A → A → Z) (descending : bool) (previous : A)
    (l : list A) : nat :=
  match l with
  | [] => 0
  | current :: l' =>
      let order := cmp current previous in
      if (if descending then (order <? 0)%Z else negb (order <? 0)%Z)
      then S (run_rest cmp descending current l')
      else 0
  end.

(** The leading run, made ascending, and the elements after it. *)
Definition make_run {A} (cmp : A → A → Z) (l : list A) : list A * list A :=
  match l with
  | e0 :: e1 :: rest =>
      let descending := (cmp e1 e0 <? 0)%Z in
      let n := run_rest cmp descending e1 rest in
      let run := e0 :: e1 :: take n rest in
      (if descending then rev run else run, drop n rest)
  | _ => (l, [])
  end.

(** The binary search for the place of [pivot] in [work] between [left]
    and [right]; the range shrinks at every step, so a [fuel] of its
    length is enough. *)
Fixpoint insertion_point {A} (fuel : nat) (cmp : A → A → Z) (pivot : A)
    (work : list A) (left right : nat) : nat :=
  match fuel with
  | 0 => left
  | S fuel' =>
      if left <? right then
        let mid := left + Nat.div2 (right - left) in
        match work !! mid with
        | Some e =>
            if (cmp pivot e <? 0)%Z
            then insertion_point fuel' cmp pivot work left mid
            else insertion_point fuel' cmp pivot work (S mid) right
        | None => left
        end
      else left
  end.

Definition binary_insert {A} (cmp : A → A → Z) (work : list A) (pivot : A)
    : list A :=
  let left := insertion_point (length work) cmp pivot work 0 (length work) in
  take left work ++ pivot :: drop left work.

Definition sort {A} (cmp : A → A → Z) (l : list A) : list A :=
  let '(run, rest) := make_run cmp l in
  fold_left (binary_insert cmp) rest run.

(** The callback of [reduce], with the accumulator paired with the index
    of the current element. *)
Definition date_step (array : list Glyph) (st : string * nat) (current : Glyph)
    : string * nat :=
  let '(acc, index) := st in
  (if index =? 0 then text current
   else
     match array !! (index - 1) with
     | Some prev =>
         if xorb (has_digit (text prev)) (has_digit (text current))
         then acc +:+ " " +:+ text current
         else acc +:+ text current
     | None => acc
     end,
   S index).

(** [array.reduce(callback, "")] *)
Definition date_parts (array : list Glyph) : string :=
  (fold_left (date_step array) array ("", 0)).1.

Definition DATE_NOT_FOUND : string := "DATE_NOT_FOUND".

Definition singleCharSpans (a : Anchor) : list Span :=
  List.filter (λ s, String.length (trim (span_textContent s)) =? 1)
              (anchor_spans a).

Definition scrapePostDate (datePermalink : option Anchor) : string :=
  match datePermalink with
  | None => DATE_NOT_FOUND
  | Some a =>
      match singleCharSpans a with
      | [] =>
          match trim (anchor_textContent a) with
          | EmptyString => DATE_NOT_FOUND
          | t => t
          end
      | s :: ss =>
          let sortedSpans := sort compare_glyphs (glyph_of <$> s :: ss) in
          match sortedSpans with
          | first :: _ =>
              date_parts
                (List.filter (λ g, (Z.abs (y g - y first) <? 5)%Z) sortedSpans)
          | [] => DATE_NOT_FOUND
          end
      end
  end.

(** *** [scrapePostAuthorAndMeta] *)

Record Link := mkLink {
  link_id : nat;
  link_textContent : string
}.

(** The header: the result of [querySelector("h2 a")] and of
    [querySelectorAll("a")]. *)
Record Header := mkHeader {
  header_author_link : option Link;
  header_links : list Link
}.

Definition AUTHOR_NOT_FOUND : string := "AUTHOR_NOT_FOUND".
Definition LOCATION_NOT_FOUND : string := "LOCATION_NOT_FOUND".

Record AuthorAndMeta := mkMeta {
  postAuthor : string;
  postLocation : string
}.

(** [a !== other] for a possibly null [other]. *)
Definition differs (a : nat) (other : option nat) : bool :=
  match other with
  | None => true
  | Some o => negb (a =? o)
  end.

Definition scrapePostAuthorAndMeta (headerDiv : option Header)
    (datePermalink : option Anchor) : AuthorAndMeta :=
  match headerDiv with
  | None => mkMeta AUTHOR_NOT_FOUND LOCATION_NOT_FOUND
  | Some h =>
      let authorLink := header_author_link h in
      let postAuthor :=
        match authorLink with
        | Some a => trim (link_textContent a)
        | None => AUTHOR_NOT_FOUND
        end in
      let locationLink :=
        List.find (λ a,
          differs (link_id a) (link_id <$> authorLink)
          && differs (link_id a) (anchor_id <$> datePermalink)
          && (0 <? String.length (trim (link_textContent a))))
          (header_links h) in
      mkMeta postAuthor
        match locationLink with
        | Some l => trim (link_textContent l)
        | None => LOCATION_NOT_FOUND
        end
  end.

(** *** [scrapeEngagement] *)

(** The stats container: its [innerText] and, when an element with an
    [aria-label] containing "See who reacted" exists, that element's
    [innerText]. *)
Record Stats := mkStats {
  stats_innerText : string;
  stats_likers : option string
}.

Record Likes := mkLikes {
  firstLiker : string;
  otherCount : number
}.

Record Engagement := mkEngagement {
  likes : Likes;
  totalComments : number
}.

(** Lines 222-233: the pair of [likes.otherCount] and [totalComments]
    after the number heuristic. *)
Definition count_heuristic (statsText : string) : number * number :=
  match digit_runs statsText with
  | [] => (Num 0, Num 0)
  | first :: rest =>
      let other := or_zero (parseInt first) in
      match rest with
      | _ :: _ => (other, or_zero (parseInt (List.last rest first)))
      | [] => if mentions_comment statsText then (Num 0, other)
              else (other, Num 0)
      end
  end.

(** Lines 236-249: the likers label applied to [likes]. *)
Definition likers_override (likersElement : option string) (l : Likes) : Likes :=
  match likersElement with
  | None => l
  | Some innerText =>
      let likersText := trim innerText in
      match likersText with
      | EmptyString => l
      | _ =>
          match match_likers likersText with
          | Some (g1, g2) => mkLikes (trim g1) (parseInt (strip_commas g2))
          | None =>
              if negb (all_digits likersText)
              then mkLikes likersText (otherCount l)
              else l
          end
      end
  end.

Definition scrapeEngagement (statsDiv : option Stats) : Engagement :=
  match statsDiv with
  | None => mkEngagement (mkLikes "" (Num 0)) (Num 0)
  | Some s =>
      let '(other, total) := count_heuristic (stats_innerText s) in
      mkEngagement (likers_override (stats_likers s) (mkLikes "" other))
                   total
  end.

(** *** [scrapeCommentsAndAvatars] *)

(** A value stored under a key of [avatars]. *)
Inductive value := Null | Str (s : string).

Definition truthy (v : value) : bool :=
  match v with
  | Null => false
  | Str s => negb (String.eqb s "")
  end.

(** The object [avatars]: its own properties and whether it still has
    [Object.prototype] as prototype. *)
Record Avatars := mkAvatars {
  own : gmap string value;
  has_prototype : bool
}.

(** [{}] *)
Definition empty_object : Avatars := mkAvatars ∅ true.

(** The property names every object inherits from [Object.prototype]; all
    of them read as truthy values. *)
Definition object_prototype_keys : list string :=
  ["constructor"; "__defineGetter__"; "__defineSetter__"; "hasOwnProperty";
   "__lookupGetter__"; "__lookupSetter__"; "isPrototypeOf";
   "propertyIsEnumerable"; "toString"; "valueOf"; "__proto__";
   "toLocaleString"].

(** [Boolean(avatars[key])] *)
Definition reads_truthy (a : Avatars) (key : string) : bool :=
  match own a !! key with
  | Some v => truthy v
  | None => has_prototype a && bool_decide (key ∈ object_prototype_keys)
  end.

(** [avatars[key] = v]. The inherited [__proto__] setter swallows the
    assignment: a string is ignored and [null] removes the prototype. *)
Definition assign (key : string) (v : value) (a : Avatars) : Avatars :=
  if bool_decide (key = "__proto__") && has_prototype a then
    match v with
    | Null => mkAvatars (own a) false
    | Str _ => a
    end
  else mkAvatars (<[key := v]> (own a)) (has_prototype a).

(** A comment element: the number of steps of the ancestor loop up to the
    comments container, its [aria-label], the [innerText] of its first
    [div[dir="auto"]] and the [xlink:href] of its first [image]. *)
Record Article := mkArticle {
  art_depth : nat;
  art_ariaLabel : option string;
  art_message : option string;
  art_avatar : option string
}.

(** [authorMatch ? authorMatch[1].trim() : null] *)
Definition authorName_of (commentEl : Article) : option string :=
  trim <$> match_author (default "" (art_ariaLabel commentEl)).

(** [(authorName && messageEl) ? messageEl.innerText.trim() : null],
    together with the author it is kept for; [None] when the callback
    returns [null]. *)
Definition parse_article (commentEl : Article) : option RawComment :=
  match authorName_of commentEl, art_message commentEl with
  | Some authorName, Some innerText =>
      if String.eqb authorName "" then None
      else
        match trim innerText with
        | EmptyString => None
        | message => Some (mkRaw authorName message (art_depth commentEl))
        end
  | _, _ => None
  end.

(** The callback of [commentArticles.map], threading [avatars]. *)
Definition visit_article (avatars : Avatars) (commentEl : Article)
    : Avatars * option RawComment :=
  match parse_article commentEl with
  | Some raw =>
      (match art_avatar commentEl with
       | Some avatarImage =>
           if truthy (Str avatarImage) && negb (reads_truthy avatars (raw_name raw))
           then assign (raw_name raw) (Str avatarImage) avatars
           else avatars
       | None => avatars
       end,
       Some raw)
  | None => (avatars, None)
  end.

(** [Array.from(commentArticles).map(...).filter(Boolean)] with the
    avatars recorded on the way. *)
Fixpoint visit_articles (avatars : Avatars) (commentArticles : list Article)
    : Avatars * list RawComment :=
  match commentArticles with
  | [] => (avatars, [])
  | commentEl :: rest =>
      let '(avatars', r) := visit_article avatars commentEl in
      let '(avatars'', rs) := visit_articles avatars' rest in
      (avatars'', option_list r ++ rs)
  end.

Definition fallback_url : string :=
  "https://placehold.co/32x32/FFFFFF/000000?text=A".

(** What the extractor reads from [document]: the [image] found from the
    page's first [h2 a], if any, with its [xlink:href] attribute, if any. *)
Record Document := mkDocument {
  authorAvatarImage : option (option string)
}.

Record CommentsAndAvatars := mkResult {
  comments : option (list Comment);
  avatars : Avatars
}.

Definition scrapeCommentsAndAvatars (document : Document)
    (commentsDiv : option (list Article)) (postAuthorName : string)
    : CommentsAndAvatars :=
  match commentsDiv with
  | None => mkResult (Some []) empty_object
  | Some commentArticles =>
      let avatars0 :=
        match authorAvatarImage document with
        | Some href =>
            if negb (String.eqb postAuthorName AUTHOR_NOT_FOUND)
            then assign postAuthorName (from_option Str Null href) empty_object
            else empty_object
        | None => empty_object
        end in
      let '(avatars1, rawComments) := visit_articles avatars0 commentArticles in
      match rawComments with
      | [] => mkResult (Some []) (assign "fallback" (Str fallback_url) avatars1)
      | _ :: _ =>
          mkResult (build_comments rawComments)
                   (assign "fallback" (Str fallback_url) avatars1)
      end
  end.

(** A comment element offers the value [w] as avatar of the name [k]: it
    parses, its author is [k], and [w] is its non-empty image URL. *)
Definition offers (commentEl : Article) (k : string) (w : value) : Prop :=
  ∃ raw url, parse_article commentEl = Some raw ∧ raw_name raw = k ∧
             art_avatar commentEl = Some url ∧ url ≠ "" ∧ w = Str url.

End Scraper.

(** ** The viewer's stepping (script.js) *)

Module Viewer.
Import Tree.

(** The viewer's globals and the parts of the page the handlers write: the
    children of [commentsContainer] and of [overlayCommentsContainer],
    each child standing for the flattened comment it was created from, and
    the text of the counter. [postData] is a record of the exported
    schema: [avatars] is an object, names and messages are strings. *)
Record ViewerState := mkViewer {
  flatCommentList : list FlatComment;
  currentCommentIndex : Z;
  commentsContainer : list FlatComment;
  overlayCommentsContainer : list FlatComment;
  commentCounter : option Z
}.

(** [flatCommentList[i]]; [None] is [undefined]. *)
Definition at_index (l : list FlatComment) (i : Z) : option FlatComment :=
  if (i <? 0)%Z then None else l !! Z.to_nat i.

(** [updateOverlayComments()]; [None] is the [TypeError] of reading a
    property of [undefined]. *)
Definition updateOverlayComments (st : ViewerState) : option ViewerState :=
  if (currentCommentIndex st =? 0)%Z then
    Some (mkViewer (flatCommentList st) (currentCommentIndex st)
                   (commentsContainer st) [] (commentCounter st))
  else
    match at_index (flatCommentList st) (currentCommentIndex st - 1) with
    | Some lastCommentData =>
        Some (mkViewer (flatCommentList st) (currentCommentIndex st)
                       (commentsContainer st) [lastCommentData]
                       (commentCounter st))
    | None => None
    end.

(** [updateCommentCounter()] *)
Definition updateCommentCounter (st : ViewerState) : ViewerState :=
  mkViewer (flatCommentList st) (currentCommentIndex st)
           (commentsContainer st) (overlayCommentsContainer st)
           (Some (currentCommentIndex st)).

(** What a call of [handleNextComment] ends in. *)
Inductive Outcome :=
| Returns (st : ViewerState)
    (** the call returns and leaves the page as [st] *)
| Throws
    (** [createCommentElement] raised its [TypeError]: the call stops
        before anything was appended or counted, the page is as before *)
| Undefined.
    (** [flatCommentList] was read outside its bounds *)

(** [handleNextComment]. [createCommentElement(commentData)] assigns markup
    that holds the name and the avatar URL as they are to [innerHTML], and
    then writes to the [.comment-message] paragraph it queries from the
    result. A name or URL whose characters end or comment out the markup
    before that paragraph (a name "<!--", say) leaves the query [null],
    and the write raises a [TypeError]. How markup parses is the
    browser's: [renders commentData] says the paragraph is found, that is,
    that the call returns its element. *)
Definition handleNextComment (renders : FlatComment → bool) (st : ViewerState)
    : Outcome :=
  if (currentCommentIndex st <? Z.of_nat (length (flatCommentList st)))%Z then
    match at_index (flatCommentList st) (currentCommentIndex st) with
    | Some commentData =>
        if renders commentData then
          match
            updateOverlayComments (updateCommentCounter
              (mkViewer (flatCommentList st) (currentCommentIndex st + 1)
                        (commentsContainer st ++ [commentData])
                        (overlayCommentsContainer st) (commentCounter st)))
          with
          | Some st' => Returns st'
          | None => Undefined
          end
        else Throws
    | None => Undefined
    end
  else Returns st.

Definition handlePreviousComment (st : ViewerState) : option ViewerState :=
  if (0 <? currentCommentIndex st)%Z then
    updateOverlayComments (updateCommentCounter
      (mkViewer (flatCommentList st) (currentCommentIndex st - 1)
                (removelast (commentsContainer st))
                (overlayCommentsContainer st) (commentCounter st)))
  else Some st.

(** The two navigation events. *)
Inductive Step := Next | Previous.

Definition handle (renders : FlatComment → bool) (s : Step) (st : ViewerState)
    : Outcome :=
  match s with
  | Next => handleNextComment renders st
  | Previous =>
      match handlePreviousComment st with
      | Some st' => Returns st'
      | None => Undefined
      end
  end.

(** A sequence of events. An event whose handler throws in
    [createCommentElement] changes nothing and the next event finds the
    page as it was; [None] is a run that read [flatCommentList] outside
    its bounds. *)
Fixpoint run (renders : FlatComment → bool) (steps : list Step)
    (st : ViewerState) : option ViewerState :=
  match steps with
  | [] => Some st
  | s :: steps' =>
      match handle renders s st with
      | Returns st' => run renders steps' st'
      | Throws => run renders steps' st
      | Undefined => None
      end
  end.

(** The state once [initializeApp]'s callback has run on the loaded
    comments: the list is flattened, the index is still 0 and nothing has
    been revealed. *)
Definition loaded (postComments : list Comment) : ViewerState :=
  mkViewer (flattenComments postComments 0) 0 [] [] None.

(** The index points into the flattened list or just past its end. *)
Definition in_range (st : ViewerState) : Prop :=
  (0 ≤ currentCommentIndex st ≤ Z.of_nat (length (flatCommentList st)))%Z.

(** The overlay that belongs to an index: empty at 0, otherwise the comment
    revealed last. *)
Definition overlay_for (flat : list FlatComment) (index : Z)
    : list FlatComment :=
  if (index =? 0)%Z then [] else option_list (at_index flat (index - 1)).

(** The page shows what the index says: the sidebar holds the first
    [currentCommentIndex] flattened comments and the overlay the last of
    them. *)
Definition revealed (st : ViewerState) : Prop :=
  commentsContainer st
  = take (Z.to_nat (currentCommentIndex st)) (flatCommentList st) ∧
  overlayCommentsContainer st
  = overlay_for (flatCommentList st) (currentCommentIndex st).

End Viewer.

(** ** Declarative reading of a depth-tagged comment sequence

    Proof-side definitions: finished reply trees as plain rose trees, the
    forest a depth-tagged sequence denotes, and the store contents that
    represent a forest whose nodes are allocated in document order. *)

Module Shape.
Import Tree.

Inductive Rose := Node (n m : string) (kids : list Rose).

Fixpoint size (t : Rose) : nat :=
  match t with
  | Node _ _ kids =>
      S ((fix total (ks : list Rose) : nat :=
            match ks with
            | [] => 0
            | k :: ks' => size k + total ks'
            end) kids)
  end.

Fixpoint forest_size (ks : list Rose) : nat :=
  match ks with
  | [] => 0
  | k :: ks' => size k + forest_size ks'
  end.

(** The exported comment of a finished tree: [replies] is present exactly
    when there is at least one reply. *)
Fixpoint to_comment (t : Rose) : Comment :=
  match t with
  | Node n m kids =>
      mkComment n m
        (match kids with
         | [] => None
         | _ :: _ => Some (map to_comment kids)
         end)
  end.

(** Pre-order listing of a forest with the nesting level of every node. *)
Fixpoint records_of_tree (lvl : nat) (t : Rose) : list RawComment :=
  match t with
  | Node n m kids =>
      mkRaw n m lvl ::
      (fix go (ks : list Rose) : list RawComment :=
         match ks with
         | [] => []
         | k :: ks' => records_of_tree (S lvl) k ++ go ks'
         end) kids
  end.

Definition records_of (lvl : nat) : list Rose → list RawComment :=
  fix go (ks : list Rose) : list RawComment :=
    match ks with
    | [] => []
    | k :: ks' => records_of_tree lvl k ++ go ks'
    end.

(** The forest denoted by a depth-tagged sequence: the first record is a
    root, the longest run of strictly deeper records after it are its
    descendants, and the remainder are its later siblings. *)
Fixpoint forest_of_records (fuel : nat) (rs : list RawComment) : list Rose :=
  match fuel, rs with
  | S fuel', r :: rs' =>
      Node (raw_name r) (raw_message r)
           (forest_of_records fuel' (take_while (λ x, depth r <? depth x) rs'))
      :: forest_of_records fuel' (drop_while (λ x, depth r <? depth x) rs')
  | _, _ => []
  end.

(** References of the roots of a forest allocated from [base] on. *)
Fixpoint roots (base : nat) (ks : list Rose) : list nat :=
  match ks with
  | [] => []
  | k :: ks' => base :: roots (base + size k) ks'
  end.

(** The [replies] property holding the given references, absent when
    there are none. *)
Definition reply_refs (refs : list nat) : option (list nat) :=
  match refs with
  | [] => None
  | _ :: _ => Some refs
  end.

(** Store segment representing a tree, then a forest, allocated in
    document order from [base] on. *)
Fixpoint layout_tree (base : nat) (t : Rose) : Store :=
  match t with
  | Node n m kids =>
      mkObj n m (reply_refs (roots (S base) kids)) ::
      (fix go (b : nat) (ks : list Rose) : Store :=
         match ks with
         | [] => []
         | k :: ks' => layout_tree b k ++ go (b + size k) ks'
         end) (S base) kids
  end.

Fixpoint layout (base : nat) (ks : list Rose) : Store :=
  match ks with
  | [] => []
  | k :: ks' => layout_tree base k ++ layout (base + size k) ks'
  end.

(** Pushing several replies onto one parent, in order. *)
Definition attach_refs (refs : list nat) (o : CommentObject) : CommentObject :=
  fold_left (λ o c, add_reply c o) refs o.

(** Where new roots of a sub-forest land: in the [replies] of the object on
    top of the stack, or in [nestedComments] when the stack is empty. *)
Definition attached_store (base : list (nat * nat)) (refs : list nat)
    (h : Store) : Store :=
  match base with
  | (p, _) :: _ => alter (attach_refs refs) p h
  | [] => h
  end.

Definition attached_nested (base : list (nat * nat)) (refs : list nat)
    (nested : list nat) : list nat :=
  match base with
  | _ :: _ => nested
  | [] => nested ++ refs
  end.

(** No comment of the tree carries an empty [replies] array. *)
Fixpoint no_empty_replies (c : Comment) : Prop :=
  match c_replies c with
  | None => True
  | Some cs =>
      cs ≠ [] ∧
      (fix all (l : list Comment) : Prop :=
         match l with
         | [] => True
         | x :: l' => no_empty_replies x ∧ all l'
         end) cs
  end.

End Shape.

(** ** Declarative reading of the date reconstruction *)

Module Spacing.
Import JS Scraper.

(** What goes between two consecutive fragments: a space exactly when one
    of them contains a digit and the other does not. *)
Definition separator (prev cur : string) : string :=
  if xorb (has_digit prev) (has_digit cur) then " " else "".

Fixpoint spaced_after (prev : string) (rest : list string) : string :=
  match rest with
  | [] => ""
  | t :: rest' => separator prev t +:+ t +:+ spaced_after t rest'
  end.

(** The fragments in order, each preceded by its separator. *)
Definition spaced (parts : list string) : string :=
  match parts with
  | [] => ""
  | t :: rest => t +:+ spaced_after t rest
  end.

(** The glyphs the extractor reads the date from: the one-character spans
    in sorted order, restricted to the vertical band of the first. *)
Definition first_line (a : Anchor) : list Glyph :=
  let sortedSpans := sort compare_glyphs (glyph_of <$> singleCharSpans a) in
  match sortedSpans with
  | [] => []
  | first :: _ => List.filter (λ g, (Z.abs (y g - y first) <? 5)%Z) sortedSpans
  end.

(** Insertion by a key: [e] goes behind the elements whose key is not
    greater. *)
Fixpoint insert_by {A} (key : A → Z) (e : A) (l : list A) : list A :=
  match l with
  | [] => [e]
  | h :: l' =>
      if (key e <? key h)%Z then e :: h :: l' else h :: insert_by key e l'
  end.

(** The elements in the order of their keys, elements with equal keys in
    the order they came in. *)
Definition sort_by {A} (key : A → Z) (l : list A) : list A :=
  fold_left (λ acc e, insert_by key e acc) l [].

(** The glyphs from left to right. *)
Definition by_left (l : list Glyph) : list Glyph := sort_by x l.

(** All glyphs lie within the tolerance of 5 pixels of each other. *)
Definition one_line (l : list Glyph) : Prop :=
  Forall (λ g, Forall (λ h, (Z.abs (y g - y h) < 5)%Z) l) l.

End Spacing.

(** ** Orientation on the page, the main photo and the assembled record *)

Module Page.
Import JS Tree Scraper.

(** A [DIV] child of the common container, seen through the queries the
    three extractors make of it. *)
Record Block := mkBlock {
  block_id : nat;
  block_header : Header;
  block_stats : Stats;
  block_articles : list Article
}.

(** An element on the parent chain of the first comment article, with its
    direct children whose [tagName] is "DIV", in order. *)
Record Ancestor := mkAncestor {
  ancestor_id : nat;
  ancestor_divs : list Block
}.

(** An [a] element inside [div[role="complementary"]]: its resolved
    [href], the element as the date extractor sees it, and the identities
    of the elements on its parent chain. *)
Record PageLink := mkPageLink {
  href : string;
  link_anchor : Anchor;
  link_ancestors : list nat
}.

(** A [div[role="main"]]: its heights and the [src] of its first
    [img[data-visualcompletion="media-vc-image"]], if it has one. *)
Record MainDiv := mkMainDiv {
  offsetHeight : Z;
  clientHeight : Z;
  main_image : option string
}.

(** What the scraper reads from [document]: the links of the first
    complementary region, if there is one, in document order; the parent
    chain of the first [div[role="article"]], nearest first, if there is
    one; all [div[role="main"]] elements; and the header image. *)
Record PageView := mkPage {
  complementary : option (list PageLink);
  firstCommentArticle : option (list Ancestor);
  mainDivs : list MainDiv;
  header_image : Scraper.Document
}.

Record CoreContainers := mkCore {
  headerDiv : Block;
  statsDiv : Block;
  commentsDiv : Block;
  datePermalink : Anchor
}.

(** [a.href.includes("/photo/")] *)
Definition is_photo_link (a : PageLink) : bool :=
  contains (chars "/photo/") (chars (href a)).

(** The test of the [while] loop on one ancestor of the article: it is
    also an ancestor of the date link and has exactly four [DIV]
    children. *)
Definition is_common (datePermalink : PageLink) (current : Ancestor) : bool :=
  bool_decide (ancestor_id current ∈ link_ancestors datePermalink)
  && (length (ancestor_divs current) =? 4).

(** [findCoreContainers()]; [None] is [null]. *)
Definition findCoreContainers (document : PageView) : option CoreContainers :=
  match complementary document with
  | None => None
  | Some links =>
      match List.find is_photo_link links with
      | None => None
      | Some datePermalink =>
          match firstCommentArticle document with
          | None => None
          | Some chain =>
              match List.find (is_common datePermalink) chain with
              | None => None
              | Some commonAncestor =>
                  match ancestor_divs commonAncestor with
                  | [d0; d1; _; d3] =>
                      Some (mkCore d0 d1 d3 (link_anchor datePermalink))
                  | _ => None
                  end
              end
          end
      end
  end.

Definition PHOTO_URL_NOT_FOUND_NO_MAIN_DIV : string :=
  "PHOTO_URL_NOT_FOUND_NO_MAIN_DIV".
Definition PHOTO_URL_NOT_FOUND_NO_IMAGE_IN_VISIBLE_MAIN_DIV : string :=
  "PHOTO_URL_NOT_FOUND_NO_IMAGE_IN_VISIBLE_MAIN_DIV".

(** [currentMainDiv.offsetHeight > 0 || currentMainDiv.clientHeight > 0] *)
Definition visible (d : MainDiv) : bool :=
  (0 <? offsetHeight d)%Z || (0 <? clientHeight d)%Z.

(** The [for] loop of [scrapeMainPhoto]: the [src] of the image of the
    first visible main div that has one. *)
Fixpoint first_photo (mainDivs : list MainDiv) : option string :=
  match mainDivs with
  | [] => None
  | currentMainDiv :: rest =>
      if visible currentMainDiv then
        match main_image currentMainDiv with
        | Some src => Some src
        | None => first_photo rest
        end
      else first_photo rest
  end.

(** A main div the loop passes over: hidden, or without the image. *)
Definition skipped (d : MainDiv) : Prop :=
  visible d = false ∨ main_image d = None.

Definition scrapeMainPhoto (mainDivs : list MainDiv) : string :=
  match mainDivs with
  | [] => PHOTO_URL_NOT_FOUND_NO_MAIN_DIV
  | _ :: _ =>
      match first_photo mainDivs with
      | Some (String c s) => String c s
      | _ => PHOTO_URL_NOT_FOUND_NO_IMAGE_IN_VISIBLE_MAIN_DIV
      end
  end.

(** [scrapedData], the object handed to [finalizeAndCopy]. *)
Record PostRecord := mkPost {
  mainPhotoUrl : string;
  postAuthor : string;
  postDate : string;
  postLocation : string;
  likes : Likes;
  totalComments : number;
  avatars : Avatars;
  comments : option (list Comment)
}.

(** [runScraper()] up to the call of [finalizeAndCopy]; [None] is the run
    that stops at the orientation alert. *)
Definition runScraper (document : PageView) : option PostRecord :=
  match findCoreContainers document with
  | None => None
  | Some core =>
      let meta :=
        scrapePostAuthorAndMeta (Some (block_header (headerDiv core)))
                                (Some (datePermalink core)) in
      let date := scrapePostDate (Some (datePermalink core)) in
      let engagement := scrapeEngagement (Some (block_stats (statsDiv core))) in
      let found :=
        scrapeCommentsAndAvatars (header_image document)
          (Some (block_articles (commentsDiv core)))
          (Scraper.postAuthor meta) in
      Some (mkPost (scrapeMainPhoto (mainDivs document))
                   (Scraper.postAuthor meta) date (Scraper.postLocation meta)
                   (Scraper.likes engagement)
                   (Scraper.totalComments engagement)
                   (Scraper.avatars found) (Scraper.comments found))
  end.

End Page.

(** ** Measures of sequences and trees *)

Module Measures.
Import Tree.

(** A sequence of levels never rises by more than one from an element to
    the next. *)
Fixpoint climbs (levels : list nat) : Prop :=
  match levels with
  | a :: (b :: _) as rest => b ≤ S a ∧ climbs rest
  | _ => True
  end.

(** A depth sequence as a pre-order walk produces it: nothing lies above
    the first element and no step goes deeper by more than one. *)
Definition well_nested (depths : list nat) : Prop :=
  match depths with
  | [] => True
  | d :: rest => Forall (λ x, d ≤ x) rest ∧ climbs (d :: rest)
  end.

(** The levels of a flattened forest: none below the starting level, the
    first at the starting level, no rise by more than one. *)
Definition levels_ok (lvl : nat) (levels : list nat) : Prop :=
  Forall (λ x, lvl ≤ x) levels ∧
  match levels with [] => True | y :: _ => y = lvl end ∧
  climbs levels.

(** The depth of the first record, 0 when there is none. *)
Definition base_depth (rs : list RawComment) : nat :=
  match rs with
  | [] => 0
  | r :: _ => depth r
  end.

(** The name and message of a raw comment and of a flattened comment. *)
Definition raw_payload (r : RawComment) : string * string :=
  (raw_name r, raw_message r).

Definition flat_payload (f : FlatComment) : string * string :=
  (c_name (flat_comment f), c_message (flat_comment f)).

(** Number of comments in a tree, replies included. *)
Fixpoint count_comments (c : Comment) : nat :=
  S match c_replies c with
    | Some cs => list_sum (map count_comments cs)
    | None => 0
    end.

(** A non-empty string of digits. *)
Definition digit_string (l : list ascii) : Prop :=
  l ≠ [] ∧ Forall (λ c, JS.is_digit c = true) l.

(** The stack from top to bottom gets strictly shallower. *)
Fixpoint shallower (stack : list (nat * nat)) : Prop :=
  match stack with
  | (_, d) :: ((_, d') :: _) as rest => d' < d ∧ shallower rest
  | _ => True
  end.

End Measures.

(** * Properties *)

Module TreeFacts.
Import Tree Shape.

Lemma size_node n m kids : size (Node n m kids) = S (forest_size kids).
Proof. reflexivity. Qed.

Lemma layout_tree_node base n m kids :
  layout_tree base (Node n m kids) =
  mkObj n m (reply_refs (roots (S base) kids)) :: layout (S base) kids.
Proof. reflexivity. Qed.

Lemma records_of_tree_node lvl n m kids :
  records_of_tree lvl (Node n m kids) = mkRaw n m lvl :: records_of (S lvl) kids.
Proof. reflexivity. Qed.

Lemma records_of_cons lvl k ks :
  records_of lvl (k :: ks) = records_of_tree lvl k ++ records_of lvl ks.
Proof. reflexivity. Qed.

(** Induction over rose trees with the hypothesis available for every
    child. *)
Lemma rose_ind (P : Rose → Prop) :
  (∀ n m kids, Forall P kids → P (Node n m kids)) → ∀ t, P t.
Proof.
  intros step. fix IH 1. intros [n m kids]. apply step.
  induction kids as [|k ks IHks]; constructor; [apply IH | exact IHks].
Qed.

Lemma length_layout ks :
  Forall (λ t, ∀ base, length (layout_tree base t) = size t) ks →
  ∀ base, length (layout base ks) = forest_size ks.
Proof.
  induction 1 as [|k ks Hk _ IH]; intros base; simpl; [reflexivity|].
  rewrite length_app, Hk, IH. reflexivity.
Qed.

Lemma length_layout_tree t base : length (layout_tree base t) = size t.
Proof.
  revert base. induction t as [n m kids IH] using rose_ind. intros base.
  rewrite layout_tree_node, size_node. simpl. f_equal.
  by apply length_layout.
Qed.

Lemma length_layout_forest ks base : length (layout base ks) = forest_size ks.
Proof.
  apply length_layout, Forall_forall. intros t _ b. apply length_layout_tree.
Qed.

(** *** Splitting a sequence at the first record that is not deeper *)

Lemma take_drop_while {A} (p : A → bool) l :
  take_while p l ++ drop_while p l = l.
Proof. induction l as [|x l IH]; simpl; [done|]. destruct (p x); simpl; congruence. Qed.

Lemma take_while_Forall {A} (p : A → bool) l :
  Forall (λ x, p x = true) (take_while p l).
Proof.
  induction l as [|x l IH]; simpl; [constructor|].
  destruct (p x) eqn:E; constructor; done.
Qed.

Lemma drop_while_head {A} (p : A → bool) l x l' :
  drop_while p l = x :: l' → p x = false.
Proof.
  induction l as [|y l IH]; simpl; [done|].
  destruct (p y) eqn:E; [exact IH|]. intros [= -> _]. exact E.
Qed.

Lemma length_take_while {A} (p : A → bool) l :
  length (take_while p l) ≤ length l.
Proof. rewrite <- (take_drop_while p l) at 2. rewrite length_app. lia. Qed.

Lemma length_drop_while {A} (p : A → bool) l :
  length (drop_while p l) ≤ length l.
Proof. rewrite <- (take_drop_while p l) at 2. rewrite length_app. lia. Qed.

Lemma take_while_all {A} (p : A → bool) l k :
  Forall (λ x, p x = true) l →
  match k with [] => True | y :: _ => p y = false end →
  take_while p (l ++ k) = l ∧ drop_while p (l ++ k) = k.
Proof.
  intros Hl Hk. induction Hl as [|x l Hx _ IH]; simpl.
  - destruct k as [|y k]; simpl; [done|]. by rewrite Hk.
  - rewrite Hx. destruct IH as [-> ->]. done.
Qed.

Lemma forest_size_records fuel : ∀ rs,
  length rs ≤ fuel → forest_size (forest_of_records fuel rs) = length rs.
Proof.
  induction fuel as [|fuel IH]; intros [|r rs] Hlen; simpl in *; try done; [lia|].
  pose proof (length_take_while (λ x, depth r <? depth x) rs).
  pose proof (length_drop_while (λ x, depth r <? depth x) rs).
  rewrite !IH by lia. rewrite <- length_app, take_drop_while. done.
Qed.

(** *** The stack discipline *)

Lemma items_from_app rs1 : ∀ base rs2,
  items_from base (rs1 ++ rs2) =
  items_from base rs1 ++ items_from (base + length rs1) rs2.
Proof.
  induction rs1 as [|r rs1 IH]; intros base rs2; simpl.
  - by rewrite Nat.add_0_r.
  - rewrite IH. do 3 f_equal. lia.
Qed.

(** Entries at least as deep as the incoming record are all popped; the
    first strictly shallower entry stops the loop. *)
Lemma pop_while_junk d junk base :
  Forall (λ e : nat * nat, d ≤ e.2) junk →
  match base with (_, dp) :: _ => dp < d | [] => True end →
  pop_while d (junk ++ base) = base.
Proof.
  intros Hj Hb. induction Hj as [|[o d'] junk Hd _ IH]; simpl in *.
  - destruct base as [|[p dp] base]; [done|]. simpl.
    destruct (Nat.leb_spec d dp); [lia | done].
  - destruct (Nat.leb_spec d d'); [exact IH | lia].
Qed.

Lemma attach_refs_cons c refs o :
  attach_refs (c :: refs) o = attach_refs refs (add_reply c o).
Proof. reflexivity. Qed.

Lemma attach_refs_some refs : ∀ n m l,
  attach_refs refs (mkObj n m (Some l)) = mkObj n m (Some (l ++ refs)).
Proof.
  induction refs as [|c refs IH]; intros n m l.
  - by rewrite app_nil_r.
  - rewrite attach_refs_cons. unfold add_reply; simpl.
    rewrite IH, <- app_assoc. done.
Qed.

Lemma attach_refs_new refs r :
  attach_refs refs (new_object r) =
  mkObj (raw_name r) (raw_message r) (reply_refs refs).
Proof.
  destruct refs as [|c refs]; [done|].
  rewrite attach_refs_cons. unfold add_reply, new_object; simpl.
  by rewrite attach_refs_some.
Qed.

Lemma attached_store_nil base h : attached_store base [] h = h.
Proof. destruct base as [|[p dp] base]; [done|]. by apply list_alter_id. Qed.

Lemma attached_nested_nil base nested : attached_nested base [] nested = nested.
Proof. destruct base; simpl; [apply app_nil_r | done]. Qed.

Lemma attached_store_app base refs h k :
  match base with (p, _) :: _ => p < length h | [] => True end →
  attached_store base refs (h ++ k) = attached_store base refs h ++ k.
Proof. destruct base as [|[p dp] base]; simpl; [done|]. apply alter_app_l. Qed.

Lemma attached_store_cons base c refs h :
  attached_store base refs (attached_store base [c] h) =
  attached_store base (c :: refs) h.
Proof.
  destruct base as [|[p dp] base]; simpl; [done|].
  rewrite list_alter_alter_eq. done.
Qed.

Lemma attached_nested_cons base c refs nested :
  attached_nested base refs (attached_nested base [c] nested) =
  attached_nested base (c :: refs) nested.
Proof. destruct base; simpl; [by rewrite <- app_assoc | done]. Qed.

Lemma length_attached_store base refs h :
  length (attached_store base refs h) = length h.
Proof. destruct base as [|[p dp] base]; simpl; [done|]. apply length_alter. Qed.

(** One iteration of the loop when everything above [base] is at least as
    deep as the incoming record. *)
Lemma step_attach h nested junk base b d :
  Forall (λ e : nat * nat, d ≤ e.2) junk →
  match base with (_, dp) :: _ => dp < d | [] => True end →
  step (mkState h nested (junk ++ base)) (b, d) =
  mkState (attached_store base [b] h) (attached_nested base [b] nested)
          ((b, d) :: base).
Proof.
  intros Hj Hb. unfold step; simpl. rewrite pop_while_junk by done.
  destruct base as [|[p dp] base]; done.
Qed.

(** *** The loop over a segment of the sequence

    Running the loop over a segment whose records are all deeper than the
    entry [base] starts with turns the segment's fresh objects into the
    layout of the forest the segment denotes and hands the forest's roots
    to the object on top of [base] (or to [nestedComments]). *)
Lemma nest_segment fuel : ∀ rs hpre hpost nested base junk,
  length rs ≤ fuel →
  match rs with
  | r :: _ => Forall (λ e : nat * nat, depth r ≤ e.2) junk
  | [] => True
  end →
  match base with
  | (p, dp) :: _ => p < length hpre ∧ Forall (λ r, dp < depth r) rs
  | [] => True
  end →
  ∃ junk',
    fold_left step (items_from (length hpre) rs)
      (mkState (hpre ++ (new_object <$> rs) ++ hpost) nested (junk ++ base))
    = mkState
        (attached_store base
           (roots (length hpre) (forest_of_records fuel rs)) hpre
         ++ layout (length hpre) (forest_of_records fuel rs) ++ hpost)
        (attached_nested base
           (roots (length hpre) (forest_of_records fuel rs)) nested)
        (junk' ++ base)
    ∧ ∀ d0, Forall (λ r, d0 ≤ depth r) rs →
            Forall (λ e : nat * nat, d0 ≤ e.2) junk →
            Forall (λ e : nat * nat, d0 ≤ e.2) junk'.
Proof.
  induction fuel as [|fuel IH]; intros rs hpre hpost nested base junk Hlen Hj Hb.
  { destruct rs; simpl in Hlen; [|lia]. exists junk. simpl.
    rewrite attached_store_nil, attached_nested_nil. done. }
  destruct rs as [|r rs'].
  { exists junk. simpl. rewrite attached_store_nil, attached_nested_nil. done. }
  cbn [forest_of_records].
  pose proof (take_drop_while (λ x, depth r <? depth x) rs') as Hsplit.
  pose proof (take_while_Forall (λ x, depth r <? depth x) rs') as Hpre.
  pose proof (drop_while_head (λ x, depth r <? depth x) rs') as Hpost.
  set (pre := take_while _ rs') in *. set (post := drop_while _ rs') in *.
  clearbody pre post. subst rs'.
  set (b := length hpre).
  assert (Hbase_d : match base with (_, dp) :: _ => dp < depth r | [] => True end).
  { destruct base as [|[p dp] base]; [done|]. destruct Hb as [_ Hb].
    by inversion Hb. }
  assert (Hbase_p : match base with (p, _) :: _ => p < length hpre | [] => True end).
  { destruct base as [|[p dp] base]; [done|]. by destruct Hb. }
  cbn [items_from fold_left fmap list_fmap].
  rewrite step_attach by done.
  rewrite attached_store_app by done.
  rewrite items_from_app, fold_left_app, fmap_app.
  (* the descendants *)
  set (hpre' := attached_store base [b] hpre).
  assert (Hlen' : length hpre' = b) by apply length_attached_store.
  destruct (IH pre (hpre' ++ [new_object r]) ((new_object <$> post) ++ hpost)
              (attached_nested base [b] nested) ((b, depth r) :: base) [])
    as (junk1 & Hrun1 & Hjunk1).
  { simpl in Hlen. rewrite length_app in Hlen. lia. }
  { destruct pre; done. }
  { split; [rewrite length_app; simpl; lia|].
    eapply Forall_impl; [exact Hpre|]. simpl. intros x Hx.
    by apply Nat.ltb_lt. }
  rewrite length_app, Hlen' in Hrun1. simpl in Hrun1.
  replace (b + 1) with (S b) in Hrun1 by lia.
  rewrite <- !app_assoc in Hrun1. simpl in Hrun1.
  cbn [app]. rewrite <- app_assoc.
  rewrite Hrun1. clear Hrun1.
  set (Fpre := forest_of_records fuel pre) in *.
  assert (Halter : ∀ f o, alter f b (hpre' ++ [o]) = hpre' ++ [f o]).
  { intros f o. rewrite alter_app_r_alt by lia.
    by rewrite Hlen', Nat.sub_diag. }
  rewrite Halter, attach_refs_new. clear Halter.
  (* the later siblings *)
  destruct (IH post (hpre' ++ layout_tree b (Node (raw_name r) (raw_message r) Fpre))
              hpost (attached_nested base [b] nested) base
              (junk1 ++ [(b, depth r)]))
    as (junk2 & Hrun2 & Hjunk2).
  { simpl in Hlen. rewrite length_app in Hlen. lia. }
  { destruct post as [|y post]; [done|].
    specialize (Hpost y post eq_refl). apply Nat.ltb_ge in Hpost.
    apply Forall_app; split.
    - eapply Forall_impl; [apply (Hjunk1 (S (depth r)))|].
      + eapply Forall_impl; [exact Hpre|]. simpl. intros x Hx.
        apply Nat.ltb_lt in Hx. lia.
      + constructor.
      + simpl. intros e He. lia.
    - repeat constructor. simpl. lia. }
  { destruct base as [|[p dp] base]; [done|]. destruct Hb as [Hp Hall].
    split; [rewrite length_app; fold b; lia|].
    inversion Hall as [|? ? _ Hall']; subst. apply Forall_app in Hall'. tauto. }
  rewrite length_app, length_layout_tree, Hlen', size_node in Hrun2.
  assert (Hsize : forest_size Fpre = length pre).
  { apply forest_size_records. simpl in Hlen. rewrite length_app in Hlen. lia. }
  rewrite Hsize in Hrun2.
  rewrite layout_tree_node in Hrun2.
  rewrite <- !app_assoc in Hrun2. simpl in Hrun2.
  replace (S b + length pre) with (b + S (length pre)) by lia.
  exists junk2. split.
  - rewrite <- (app_assoc hpre'). cbn [app].
    rewrite Hrun2. clear Hrun2.
    cbn [roots layout]. rewrite size_node, Hsize, layout_tree_node.
    rewrite attached_store_app by (by rewrite Hlen').
    unfold hpre'. rewrite attached_store_cons, attached_nested_cons.
    rewrite <- !app_assoc. simpl. done.
  - intros d0 Hall Hjunk. apply Hjunk2.
    + inversion Hall as [|? ? _ Hall']; subst. apply Forall_app in Hall'. tauto.
    + inversion Hall as [|? ? Hr Hall']; subst. apply Forall_app in Hall'.
      apply Forall_app; split; [|repeat constructor; done].
      apply Hjunk1; [tauto | constructor].
Qed.

(** The whole loop: the store ends as the layout of the denoted forest and
    [nestedComments] as its roots. *)
Lemma nest_layout rs :
  ∃ stack,
    nest rs = mkState (layout 0 (forest_of_records (length rs) rs))
                      (roots 0 (forest_of_records (length rs) rs)) stack.
Proof.
  destruct (nest_segment (length rs) rs [] [] [] [] []) as (junk & Hrun & _).
  - done.
  - destruct rs; done.
  - done.
  - exists junk. unfold nest. simpl in Hrun.
    rewrite !app_nil_r in Hrun. exact Hrun.
Qed.

(** *** Reading a layout back *)

Lemma lookup_layout_tree hpre hpost n m kids :
  (hpre ++ layout_tree (length hpre) (Node n m kids) ++ hpost) !! length hpre
  = Some (mkObj n m (reply_refs (roots (S (length hpre)) kids))).
Proof.
  rewrite lookup_app_r by lia. rewrite Nat.sub_diag. done.
Qed.

Lemma size_pos t : 0 < size t.
Proof. destruct t. rewrite size_node. lia. Qed.

Section ReadBack.
Variable fuel : nat.

Hypothesis forest_ok : ∀ ks hpre hpost,
  forest_size ks ≤ fuel →
  traverse (serialize fuel (hpre ++ layout (length hpre) ks ++ hpost))
           (roots (length hpre) ks)
  = Some (map to_comment ks).

Lemma serialize_tree_step t hpre hpost :
  size t ≤ S fuel →
  serialize (S fuel) (hpre ++ layout_tree (length hpre) t ++ hpost)
            (length hpre)
  = Some (to_comment t).
Proof.
  destruct t as [n m kids]. intros Hsize. rewrite size_node in Hsize.
  cbn [serialize]. rewrite lookup_layout_tree. cbn [replies name message].
  destruct kids as [|k kids]; [done|].
  rewrite layout_tree_node.
  change (reply_refs (roots (S (length hpre)) (k :: kids)))
    with (Some (roots (S (length hpre)) (k :: kids))).
  pose proof (forest_ok (k :: kids)
    (hpre ++ [mkObj n m (Some (roots (S (length hpre)) (k :: kids)))])
    hpost) as H.
  rewrite length_app in H. cbn [length] in H.
  rewrite Nat.add_1_r, <- app_assoc in H. cbn [app] in H.
  cbn [app]. rewrite H by (simpl in *; lia). done.
Qed.
End ReadBack.

Lemma traverse_trees fuel :
  (∀ t hpre hpost,
     size t ≤ fuel →
     serialize fuel (hpre ++ layout_tree (length hpre) t ++ hpost) (length hpre)
     = Some (to_comment t)) →
  ∀ ks hpre hpost,
    forest_size ks ≤ fuel →
    traverse (serialize fuel (hpre ++ layout (length hpre) ks ++ hpost))
             (roots (length hpre) ks)
    = Some (map to_comment ks).
Proof.
  intros Htree. induction ks as [|k ks IH]; intros hpre hpost Hsize; [done|].
  simpl in Hsize. cbn [roots layout traverse map].
  rewrite <- app_assoc. rewrite Htree by lia.
  specialize (IH (hpre ++ layout_tree (length hpre) k) hpost).
  rewrite length_app, length_layout_tree, <- app_assoc in IH.
  rewrite IH by lia. done.
Qed.

Lemma serialize_layout fuel : ∀ ks hpre hpost,
  forest_size ks ≤ fuel →
  traverse (serialize fuel (hpre ++ layout (length hpre) ks ++ hpost))
           (roots (length hpre) ks)
  = Some (map to_comment ks).
Proof.
  induction fuel as [|fuel IH].
  - intros [|k ks] hpre hpost Hsize; [done|].
    simpl in Hsize. pose proof (size_pos k). lia.
  - apply traverse_trees. intros t hpre hpost Hsize.
    by apply serialize_tree_step.
Qed.

(** *** The strip pass on a layout *)

Lemma alter_fixed {A} (f : A → A) (l : list A) i x :
  l !! i = Some x → f x = x → alter f i l = l.
Proof.
  revert i. induction l as [|y l IH]; intros [|i] Hi Hf; simpl in *; try done.
  - by injection Hi as ->; rewrite Hf.
  - f_equal. by apply IH.
Qed.

Section Strip.
Variable fuel : nat.

Hypothesis forest_ok : ∀ ks hpre hpost,
  forest_size ks < fuel →
  removeEmptyReplies fuel (hpre ++ layout (length hpre) ks ++ hpost)
                     (roots (length hpre) ks)
  = Some (hpre ++ layout (length hpre) ks ++ hpost).

(** The callback of [forEach] leaves a laid-out tree as it is. *)
Lemma strip_tree_step t hpre hpost :
  size t ≤ fuel →
  let h := hpre ++ layout_tree (length hpre) t ++ hpost in
  match h !! length hpre with
  | None => None
  | Some o =>
      match replies o with
      | Some (r :: rs) => removeEmptyReplies fuel h (r :: rs)
      | _ => Some (alter delete_replies (length hpre) h)
      end
  end = Some h.
Proof.
  destruct t as [n m kids]. intros Hsize h. rewrite size_node in Hsize.
  unfold h at 1. rewrite lookup_layout_tree. cbn [replies].
  destruct kids as [|k kids].
  - cbn [roots reply_refs]. f_equal.
    eapply alter_fixed; [apply lookup_layout_tree | done].
  - change (reply_refs (roots (S (length hpre)) (k :: kids)))
      with (Some (roots (S (length hpre)) (k :: kids))).
    change (roots (S (length hpre)) (k :: kids))
      with (S (length hpre) :: roots (S (length hpre) + size k) kids) at 1.
    cbv iota beta.
    change (S (length hpre) :: roots (S (length hpre) + size k) kids)
      with (roots (S (length hpre)) (k :: kids)).
    unfold h. rewrite layout_tree_node.
    change (reply_refs (roots (S (length hpre)) (k :: kids)))
      with (Some (roots (S (length hpre)) (k :: kids))).
    pose proof (forest_ok (k :: kids)
      (hpre ++ [mkObj n m (Some (roots (S (length hpre)) (k :: kids)))])
      hpost) as H.
    rewrite length_app in H. cbn [length] in H.
    rewrite Nat.add_1_r, <- app_assoc in H. cbn [app] in H.
    cbn [app]. apply H. lia.
Qed.
End Strip.

Lemma for_each_trees (f : Store → nat → option Store) :
  ∀ ks hpre hpost,
    (∀ t hpre' hpost' h,
       h = hpre' ++ layout_tree (length hpre') t ++ hpost' →
       t ∈ ks → f h (length hpre') = Some h) →
    for_each f (hpre ++ layout (length hpre) ks ++ hpost)
             (roots (length hpre) ks)
    = Some (hpre ++ layout (length hpre) ks ++ hpost).
Proof.
  induction ks as [|k ks IH]; intros hpre hpost Hf; [done|].
  cbn [roots layout for_each].
  rewrite (Hf k hpre (layout (length hpre + size k) ks ++ hpost));
    [| by rewrite <- app_assoc | by left].
  specialize (IH (hpre ++ layout_tree (length hpre) k) hpost).
  rewrite length_app, length_layout_tree, <- !app_assoc in IH.
  rewrite <- app_assoc. apply IH.
  intros t hpre' hpost' h Hh Ht. apply (Hf t hpre' hpost' h Hh). by right.
Qed.

Lemma size_le_forest t ks : t ∈ ks → size t ≤ forest_size ks.
Proof.
  induction 1 as [t ks|t k ks _ IH]; simpl; lia.
Qed.

(** On the store the loop leaves behind, [removeEmptyReplies] finds no
    empty array and changes nothing. *)
Lemma strip_layout fuel : ∀ ks hpre hpost,
  forest_size ks < fuel →
  removeEmptyReplies fuel (hpre ++ layout (length hpre) ks ++ hpost)
                     (roots (length hpre) ks)
  = Some (hpre ++ layout (length hpre) ks ++ hpost).
Proof.
  induction fuel as [|fuel IH]; intros ks hpre hpost Hsize; [lia|].
  cbn [removeEmptyReplies]. apply for_each_trees.
  intros t hpre' hpost' h -> Ht.
  apply (strip_tree_step fuel IH t hpre' hpost').
  apply size_le_forest in Ht. lia.
Qed.

(** *** The tree returned for a sequence of raw comments *)

Lemma build_comments_forest rs :
  build_comments rs = Some (map to_comment (forest_of_records (length rs) rs)).
Proof.
  unfold build_comments.
  destruct (nest_layout rs) as [stack ->]. cbn [store nestedComments].
  set (ks := forest_of_records _ _).
  assert (Hsize : forest_size ks = length rs)
    by (by apply forest_size_records).
  clearbody ks.
  pose proof (strip_layout (S (length rs)) ks [] []) as Hstrip.
  pose proof (serialize_layout (S (length rs)) ks [] []) as Hread.
  cbn [app] in Hstrip, Hread. change (length (@nil CommentObject)) with 0 in *.
  rewrite app_nil_r in Hstrip, Hread.
  rewrite Hstrip by lia. apply Hread. lia.
Qed.

(** *** Flattening and the denoted forest *)

Lemma records_depth_tree t : ∀ lvl,
  Forall (λ r, lvl ≤ depth r) (records_of_tree lvl t).
Proof.
  induction t as [n m kids IH] using rose_ind. intros lvl.
  rewrite records_of_tree_node. constructor; [simpl; lia|].
  induction IH as [|k ks Hk _ IHks]; [constructor|].
  rewrite records_of_cons. apply Forall_app; split; [|exact IHks].
  eapply Forall_impl; [apply Hk|]. simpl. intros; lia.
Qed.

Lemma records_depth ks lvl : Forall (λ r, lvl ≤ depth r) (records_of lvl ks).
Proof.
  induction ks as [|k ks IH]; [constructor|].
  rewrite records_of_cons. apply Forall_app; split; [|exact IH].
  apply records_depth_tree.
Qed.

Lemma records_head ks lvl :
  match records_of lvl ks with
  | [] => True
  | r :: _ => depth r = lvl
  end.
Proof. destruct ks as [|[n m kids] ks]; done. Qed.

(** A forest is recovered from its own pre-order listing. *)
Lemma forest_of_records_of fuel : ∀ ks lvl,
  forest_size ks ≤ fuel → forest_of_records fuel (records_of lvl ks) = ks.
Proof.
  induction fuel as [|fuel IH]; intros [|[n m kids] ks] lvl Hsize; try done.
  { simpl in Hsize. lia. }
  cbn [forest_size] in Hsize. rewrite size_node in Hsize.
  rewrite records_of_cons, records_of_tree_node.
  rewrite <- app_comm_cons. cbn [forest_of_records raw_name raw_message depth].
  destruct (take_while_all (λ x, lvl <? depth x)
              (records_of (S lvl) kids) (records_of lvl ks)) as [-> ->].
  - eapply Forall_impl; [apply records_depth|]. simpl. intros r Hr.
    apply Nat.ltb_lt. lia.
  - pose proof (records_head ks lvl) as Hhead.
    destruct (records_of lvl ks) as [|y l]; [done|].
    apply Nat.ltb_ge. lia.
  - rewrite !IH by lia. done.
Qed.

Lemma flatten_to_comment t : ∀ lvl,
  map raw_of_flat (flatten_comment lvl (to_comment t)) = records_of_tree lvl t.
Proof.
  induction t as [n m kids IH] using rose_ind. intros lvl.
  rewrite records_of_tree_node. destruct kids as [|k kids]; [done|].
  cbn [to_comment flatten_comment c_replies map]. f_equal.
  change (to_comment k :: map to_comment kids) with (map to_comment (k :: kids)).
  induction IH as [|k' ks Hk _ IHks]; [done|].
  cbn [map flat_map]. rewrite map_app, Hk, IHks. done.
Qed.

Lemma flattenComments_forest ks lvl :
  map raw_of_flat (flattenComments (map to_comment ks) lvl) = records_of lvl ks.
Proof.
  induction ks as [|k ks IH]; [done|]. unfold flattenComments in *.
  cbn [map flat_map]. rewrite map_app, flatten_to_comment, IH. done.
Qed.

Lemma length_records_of_tree t : ∀ lvl, length (records_of_tree lvl t) = size t.
Proof.
  induction t as [n m kids IH] using rose_ind. intros lvl.
  rewrite records_of_tree_node, size_node. simpl. f_equal.
  induction IH as [|k ks Hk _ IHks]; [done|].
  rewrite records_of_cons, length_app, Hk, IHks. done.
Qed.

Lemma length_records_of ks lvl : length (records_of lvl ks) = forest_size ks.
Proof.
  induction ks as [|k ks IH]; [done|].
  rewrite records_of_cons, length_app, length_records_of_tree, IH. done.
Qed.

(** *** Empty [replies] arrays *)

Lemma no_empty_replies_some n m cs :
  cs ≠ [] → Forall no_empty_replies cs →
  no_empty_replies (mkComment n m (Some cs)).
Proof.
  intros Hne Hall. simpl. split; [exact Hne|]. clear Hne.
  induction Hall as [|c l Hc _ IH]; [exact I | split; [exact Hc | exact IH]].
Qed.

Lemma to_comment_no_empty t : no_empty_replies (to_comment t).
Proof.
  induction t as [n m kids IH] using rose_ind.
  destruct kids as [|k kids]; [done|].
  cbn [to_comment]. apply no_empty_replies_some; [done|].
  change (to_comment k :: map to_comment kids) with (map to_comment (k :: kids)).
  induction IH; constructor; auto.
Qed.

(** *** Specified properties of the comment tree *)

(** C1. Round trip of the comment tree: for every sequence of raw comments
    (depths are natural numbers; no further condition on them is needed,
    so in particular for those that are monotonic within each run of
    descendants) the builder returns a tree, and flattening that tree in
    pre-order with [flattenComments] from level 0, reading each flattened
    comment as a record whose depth is its level, and building again
    returns the same tree. *)
Theorem C1_flatten_rebuild_roundtrip (rs : list RawComment) :
  ∃ tree,
    build_comments rs = Some tree ∧
    build_comments (map raw_of_flat (flattenComments tree 0)) = Some tree.
Proof.
  exists (map to_comment (forest_of_records (length rs) rs)).
  split; [apply build_comments_forest|].
  rewrite flattenComments_forest, build_comments_forest.
  rewrite length_records_of, forest_of_records_of by done. done.
Qed.

(** C2. Depth-stack example: on the records (A,0), (B,1), (C,1), (D,0),
    whatever their names and messages, the builder returns the two
    top-level comments A and D, A with replies [B, C] and D, like B and C,
    without a [replies] property. *)
Theorem C2_depth_stack_example (nA mA nB mB nC mC nD mD : string) :
  build_comments [mkRaw nA mA 0; mkRaw nB mB 1; mkRaw nC mC 1; mkRaw nD mD 0]
  = Some [mkComment nA mA (Some [mkComment nB mB None; mkComment nC mC None]);
          mkComment nD mD None].
Proof. reflexivity. Qed.

(** C3. Empty-replies invariant: for every sequence of raw comments the
    builder returns a tree, and no comment anywhere in it has a [replies]
    array of length zero: a comment without replies has no [replies]
    property. *)
Theorem C3_no_empty_replies (rs : list RawComment) :
  ∃ tree, build_comments rs = Some tree ∧ Forall no_empty_replies tree.
Proof.
  exists (map to_comment (forest_of_records (length rs) rs)).
  split; [apply build_comments_forest|].
  apply Forall_forall. intros c Hc.
  apply list_elem_of_In, in_map_iff in Hc as (t & <- & _).
  apply to_comment_no_empty.
Qed.

End TreeFacts.

(** ** The date extractor *)

Module DateFacts.
Import JS Scraper Spacing.

Lemma string_app_assoc (a b c : string) : (a +:+ b) +:+ c = a +:+ b +:+ c.
Proof.
  induction a as [|x a IH]; [done|].
  change (String x ((a +:+ b) +:+ c) = String x (a +:+ b +:+ c)).
  by rewrite IH.
Qed.

Lemma string_app_empty_r (a : string) : a +:+ "" = a.
Proof.
  induction a as [|x a IH]; [done|].
  change (String x (a +:+ "") = String x a). by rewrite IH.
Qed.

Lemma last_cons {A} (l : list A) : ∀ (e d : A),
  List.last (e :: l) d = List.last l e.
Proof.
  induction l as [|h l IH]; intros e d; [done|].
  change (List.last (e :: h :: l) d) with (List.last (h :: l) d).
  rewrite !IH. done.
Qed.

Lemma spaced_after_snoc rest : ∀ prev t,
  spaced_after prev (rest ++ [t]) =
  spaced_after prev rest +:+ separator (List.last rest prev) t +:+ t.
Proof.
  induction rest as [|u rest IH]; intros prev t.
  - simpl. by rewrite string_app_empty_r.
  - cbn [app spaced_after]. rewrite IH, !string_app_assoc, last_cons. done.
Qed.

Lemma spaced_snoc parts prev t :
  List.last parts prev = prev → parts ≠ [] →
  spaced (parts ++ [t]) = spaced parts +:+ separator prev t +:+ t.
Proof.
  destruct parts as [|u rest]; [done|]. intros Hlast _.
  rewrite last_cons in Hlast.
  cbn [app spaced]. rewrite spaced_after_snoc, string_app_assoc, Hlast. done.
Qed.

Lemma last_snoc {A} (l : list A) (e d : A) : List.last (l ++ [e]) d = e.
Proof. induction l as [|h l IH]; [done|]. simpl. destruct (l ++ [e]) eqn:E; [by destruct l|]. done. Qed.

(** The callback appends the current fragment behind its separator. *)
Lemma date_step_snoc pre prev cur suf :
  date_step ((pre ++ [prev]) ++ cur :: suf)
            (spaced (text <$> pre ++ [prev]), length (pre ++ [prev])) cur
  = (spaced (text <$> (pre ++ [prev]) ++ [cur]),
     length ((pre ++ [prev]) ++ [cur])).
Proof.
  unfold date_step. rewrite !length_app. cbn [length].
  replace (length pre + 1 =? 0) with false by (symmetry; apply Nat.eqb_neq; lia).
  replace (length pre + 1 - 1) with (length pre) by lia.
  rewrite <- !app_assoc. cbn [app]. rewrite list_lookup_middle by done.
  f_equal; [|lia].
  replace (pre ++ [prev; cur]) with ((pre ++ [prev]) ++ [cur])
    by (by rewrite <- app_assoc).
  rewrite (fmap_app _ (pre ++ [prev]) [cur]).
  change (text <$> [cur]) with [text cur].
  rewrite (spaced_snoc _ (text prev)).
  - unfold separator. destruct (xorb _ _); reflexivity.
  - rewrite fmap_app. apply last_snoc.
  - rewrite fmap_app. by destruct (text <$> pre).
Qed.

Lemma date_fold suf : ∀ pre,
  pre ≠ [] →
  fold_left (date_step (pre ++ suf)) suf (spaced (text <$> pre), length pre)
  = (spaced (text <$> pre ++ suf), length (pre ++ suf)).
Proof.
  induction suf as [|cur suf IH]; intros pre Hpre.
  - by rewrite app_nil_r.
  - destruct (exists_last Hpre) as (pre0 & prev & ->).
    cbn [fold_left]. rewrite date_step_snoc.
    specialize (IH ((pre0 ++ [prev]) ++ [cur])).
    rewrite <- (app_assoc _ [cur] suf) in IH. cbn [app] in IH.
    apply IH. by destruct (pre0 ++ [prev]).
Qed.

(** [reduce] builds the fragments joined by their separators. *)
Lemma date_parts_spaced (array : list Glyph) :
  date_parts array = spaced (text <$> array).
Proof.
  unfold date_parts. destruct array as [|g array]; [done|].
  cbn [fold_left]. change (date_step (g :: array) ("", 0) g) with (text g, 1).
  pose proof (date_fold array [g]) as H. cbn [app] in H.
  change (spaced (text <$> [g])) with (text g +:+ "") in H.
  rewrite string_app_empty_r in H. cbn [length] in H.
  rewrite H by done. done.
Qed.

(** *** The sort rearranges and, under a consistent comparator, orders *)

Lemma binary_insert_perm {A} (cmp : A → A → Z) work pivot :
  binary_insert cmp work pivot ≡ₚ pivot :: work.
Proof.
  unfold binary_insert.
  rewrite <- Permutation_middle. by rewrite take_drop.
Qed.

Lemma fold_binary_insert_perm {A} (cmp : A → A → Z) rest : ∀ run,
  fold_left (binary_insert cmp) rest run ≡ₚ run ++ rest.
Proof.
  induction rest as [|e rest IH]; intros run; cbn [fold_left].
  - by rewrite app_nil_r.
  - rewrite IH, binary_insert_perm. by rewrite <- Permutation_middle.
Qed.

Lemma make_run_perm {A} (cmp : A → A → Z) l :
  (make_run cmp l).1 ++ (make_run cmp l).2 ≡ₚ l.
Proof.
  destruct l as [|e0 [|e1 rest]]; [done | done |].
  cbn [make_run fst snd].
  set (n := run_rest cmp (cmp e1 e0 <? 0)%Z e1 rest).
  assert (e0 :: e1 :: take n rest ≡ₚ
          (if (cmp e1 e0 <? 0)%Z then rev (e0 :: e1 :: take n rest)
           else e0 :: e1 :: take n rest)) as <-.
  { destruct (cmp e1 e0 <? 0)%Z; [apply Permutation_rev | done]. }
  cbn [app]. by rewrite take_drop.
Qed.

Lemma sort_perm {A} (cmp : A → A → Z) l : sort cmp l ≡ₚ l.
Proof.
  unfold sort. pose proof (make_run_perm cmp l) as Hrun.
  destruct (make_run cmp l) as [run rest]. cbn [fst snd] in Hrun.
  by rewrite fold_binary_insert_perm.
Qed.

Lemma length_sort {A} (cmp : A → A → Z) l : length (sort cmp l) = length l.
Proof. by rewrite sort_perm. Qed.

Lemma insert_by_perm {A} (key : A → Z) e l : insert_by key e l ≡ₚ e :: l.
Proof.
  induction l as [|h l IH]; [done|]. cbn [insert_by].
  destruct (key e <? key h)%Z; [done|].
  rewrite IH. apply Permutation_swap.
Qed.

Lemma fold_insert_by_perm {A} (key : A → Z) l : ∀ acc,
  fold_left (λ acc e, insert_by key e acc) l acc ≡ₚ acc ++ l.
Proof.
  induction l as [|e l IH]; intros acc; cbn [fold_left].
  - by rewrite app_nil_r.
  - rewrite IH, insert_by_perm. by rewrite <- Permutation_middle.
Qed.

Lemma sort_by_perm {A} (key : A → Z) l : sort_by key l ≡ₚ l.
Proof. unfold sort_by. by rewrite fold_insert_by_perm. Qed.

Lemma insert_by_sorted {A} (key : A → Z) e l :
  StronglySorted (λ a b, key a ≤ key b)%Z l →
  StronglySorted (λ a b, key a ≤ key b)%Z (insert_by key e l).
Proof.
  induction l as [|h l IH]; intros Hl; cbn [insert_by].
  - repeat constructor.
  - apply StronglySorted_inv in Hl as [Hl Hh].
    destruct (Z.ltb_spec (key e) (key h)) as [Hlt|Hge].
    + constructor; [by constructor|].
      constructor; [lia|]. eapply Forall_impl; [exact Hh|].
      intros b Hb. cbn in Hb. lia.
    + constructor; [by apply IH|].
      rewrite insert_by_perm. by constructor.
Qed.

Lemma fold_insert_by_sorted {A} (key : A → Z) l : ∀ acc,
  StronglySorted (λ a b, key a ≤ key b)%Z acc →
  StronglySorted (λ a b, key a ≤ key b)%Z
    (fold_left (λ acc e, insert_by key e acc) l acc).
Proof.
  induction l as [|e l IH]; intros acc Hacc; [done|].
  cbn [fold_left]. by apply IH, insert_by_sorted.
Qed.

Lemma sort_by_sorted {A} (key : A → Z) l :
  StronglySorted (λ a b, key a ≤ key b)%Z (sort_by key l).
Proof. apply fold_insert_by_sorted. constructor. Qed.

Lemma sorted_lookup {A} (key : A → Z) l : ∀ i j a b,
  StronglySorted (λ a b, key a ≤ key b)%Z l →
  i ≤ j → l !! i = Some a → l !! j = Some b → (key a ≤ key b)%Z.
Proof.
  induction l as [|h l IH]; intros i j a b Hl Hij Ha Hb; [done|].
  apply StronglySorted_inv in Hl as [Hl Hh].
  destruct i as [|i], j as [|j]; cbn in Ha, Hb.
  - assert (a = b) as -> by congruence. lia.
  - injection Ha as <-. rewrite Forall_forall in Hh.
    apply Hh. by eapply list_elem_of_lookup_2.
  - lia.
  - apply (IH i j); [done | lia | done | done].
Qed.

(** Where the elements behind a position all have the greater key and the
    elements before it do not, insertion by key puts the element there. *)
Lemma insert_by_at {A} (key : A → Z) e l : ∀ r,
  r ≤ length l →
  (∀ i a, i < r → l !! i = Some a → (key a ≤ key e)%Z) →
  (∀ i a, r ≤ i → l !! i = Some a → (key e < key a)%Z) →
  insert_by key e l = take r l ++ e :: drop r l.
Proof.
  induction l as [|h l IH]; intros r Hr Hlow Hhigh.
  - cbn in Hr. by replace r with 0 by lia.
  - cbn [insert_by]. destruct r as [|r].
    + specialize (Hhigh 0 h ltac:(lia) eq_refl).
      destruct (Z.ltb_spec (key e) (key h)); [done | lia].
    + specialize (Hlow 0 h ltac:(lia) eq_refl) as Hh.
      destruct (Z.ltb_spec (key e) (key h)); [lia|].
      cbn [take drop app]. f_equal. apply IH.
      * cbn in Hr. lia.
      * intros i a Hi Ha. apply (Hlow (S i)); [lia | done].
      * intros i a Hi Ha. apply (Hhigh (S i)); [lia | done].
Qed.

Section Consistent.
Context {A : Type} (cmp : A → A → Z) (key : A → Z) (P : A → Prop).
Hypothesis cmp_key : ∀ a b, P a → P b → cmp a b = (key a - key b)%Z.

(** The binary search ends at the place insertion by key finds. *)
Lemma insertion_point_spec pivot work : ∀ fuel left right,
  P pivot → Forall P work →
  StronglySorted (λ a b, key a ≤ key b)%Z work →
  left ≤ right ≤ length work → right - left ≤ fuel →
  (∀ i a, i < left → work !! i = Some a → (key a ≤ key pivot)%Z) →
  (∀ i a, right ≤ i → work !! i = Some a → (key pivot < key a)%Z) →
  insertion_point fuel cmp pivot work left right ≤ length work ∧
  (∀ i a, i < insertion_point fuel cmp pivot work left right →
          work !! i = Some a → (key a ≤ key pivot)%Z) ∧
  (∀ i a, insertion_point fuel cmp pivot work left right ≤ i →
          work !! i = Some a → (key pivot < key a)%Z).
Proof.
  intros fuel. induction fuel as [|fuel IH];
    intros left right Hp Hwork Hsorted Hrange Hfuel Hlow Hhigh.
  - cbn [insertion_point]. assert (left = right) as -> by lia.
    split; [lia|]. by split.
  - cbn [insertion_point].
    destruct (Nat.ltb_spec left right) as [Hlt|Hge].
    + set (mid := left + Nat.div2 (right - left)).
      assert (left ≤ mid < right) as Hmid.
      { pose proof (Nat.lt_div2 (right - left) ltac:(lia)) as Hhalf.
        unfold mid. revert Hhalf.
        generalize (Nat.div2 (right - left)). intros half Hhalf. lia. }
      destruct (lookup_lt_is_Some_2 work mid ltac:(lia)) as [e He].
      rewrite He.
      assert (P e) as Pe.
      { rewrite Forall_forall in Hwork. apply Hwork.
        by eapply list_elem_of_lookup_2. }
      rewrite (cmp_key pivot e Hp Pe).
      destruct (Z.ltb_spec (key pivot - key e) 0) as [Hneg|Hpos].
      * apply IH; [done | done | done | lia | lia | done |].
        intros i a Hi Ha.
        pose proof (sorted_lookup key work mid i e a Hsorted Hi He Ha). lia.
      * apply IH; [done | done | done | lia | lia | | done].
        intros i a Hi Ha.
        pose proof (sorted_lookup key work i mid a e Hsorted ltac:(lia) Ha He).
        lia.
    + assert (left = right) as -> by lia. split; [lia|]. by split.
Qed.

Lemma binary_insert_by work pivot :
  P pivot → Forall P work →
  StronglySorted (λ a b, key a ≤ key b)%Z work →
  binary_insert cmp work pivot = insert_by key pivot work.
Proof.
  intros Hp Hwork Hsorted. unfold binary_insert.
  destruct (insertion_point_spec pivot work (length work) 0 (length work))
    as (Hr & Hlow & Hhigh); [done | done | done | lia | lia | | |].
  - intros i a Hi. lia.
  - intros i a Hi Ha. apply lookup_lt_Some in Ha. lia.
  - symmetry. by apply insert_by_at.
Qed.

Lemma fold_binary_insert_by rest : ∀ run,
  Forall P rest → Forall P run →
  StronglySorted (λ a b, key a ≤ key b)%Z run →
  fold_left (binary_insert cmp) rest run
  = fold_left (λ acc e, insert_by key e acc) rest run.
Proof.
  induction rest as [|e rest IH]; intros run Hrest Hrun Hsorted; [done|].
  apply Forall_cons in Hrest as [He Hrest]. cbn [fold_left].
  rewrite (binary_insert_by run e) by done.
  apply IH; [done | | by apply insert_by_sorted].
  rewrite insert_by_perm. by constructor.
Qed.

(** The run found at the start of the array is a chain: each element is
    not less than the one before it or, in a descending run, less. *)
Lemma run_rest_ascending l : ∀ previous,
  Forall P (previous :: l) →
  Sorted (λ a b, key a ≤ key b)%Z
    (previous :: take (run_rest cmp false previous l) l).
Proof.
  induction l as [|current l IH]; intros previous Hall.
  - repeat constructor.
  - apply Forall_cons in Hall as [Hp Hall].
    pose proof Hall as Hall'. apply Forall_cons in Hall' as [Hc _].
    cbn [run_rest]. rewrite (cmp_key current previous Hc Hp).
    destruct (Z.ltb_spec (key current - key previous) 0); cbn [negb take].
    + repeat constructor.
    + constructor; [by apply IH|]. constructor. lia.
Qed.

Lemma run_rest_descending l : ∀ previous,
  Forall P (previous :: l) →
  Sorted (λ a b, key b < key a)%Z
    (previous :: take (run_rest cmp true previous l) l).
Proof.
  induction l as [|current l IH]; intros previous Hall.
  - repeat constructor.
  - apply Forall_cons in Hall as [Hp Hall].
    pose proof Hall as Hall'. apply Forall_cons in Hall' as [Hc _].
    cbn [run_rest]. rewrite (cmp_key current previous Hc Hp).
    destruct (Z.ltb_spec (key current - key previous) 0); cbn [take].
    + constructor; [by apply IH|]. constructor. lia.
    + repeat constructor.
Qed.

End Consistent.

(** Insertion by key of an ascending chain appends it, of a strictly
    descending chain prepends it in reverse. *)
Lemma fold_insert_by_ascending {A} (key : A → Z) l : ∀ acc last,
  Sorted (λ a b, key a ≤ key b)%Z (last :: l) →
  Forall (λ a, key a ≤ key last)%Z acc →
  fold_left (λ acc e, insert_by key e acc) l acc = acc ++ l.
Proof.
  induction l as [|h l IH]; intros acc last Hchain Hacc; cbn [fold_left].
  - by rewrite app_nil_r.
  - apply Sorted_inv in Hchain as [Hchain Hh]. apply HdRel_inv in Hh.
    assert (insert_by key h acc = acc ++ [h]) as ->.
    { clear -Hacc Hh. induction acc as [|a acc IHacc]; [done|].
      apply Forall_cons in Hacc as [Ha Hacc]. cbn [insert_by].
      destruct (Z.ltb_spec (key h) (key a)); [lia|].
      cbn [app]. f_equal. by apply IHacc. }
    rewrite (IH (acc ++ [h]) h); [by rewrite <- app_assoc | done |].
    apply Forall_app. split; [|by repeat constructor].
    eapply Forall_impl; [exact Hacc|]. intros a Ha. cbn in Ha. lia.
Qed.

Lemma fold_insert_by_descending {A} (key : A → Z) l : ∀ acc last,
  Sorted (λ a b, key b < key a)%Z (last :: l) →
  Forall (λ a, key last ≤ key a)%Z acc →
  fold_left (λ acc e, insert_by key e acc) l acc = rev l ++ acc.
Proof.
  induction l as [|h l IH]; intros acc last Hchain Hacc; cbn [fold_left];
    [done|].
  apply Sorted_inv in Hchain as [Hchain Hh]. apply HdRel_inv in Hh.
  assert (insert_by key h acc = h :: acc) as ->.
  { destruct acc as [|a acc]; [done|].
    apply Forall_cons in Hacc as [Ha Hacc]. cbn [insert_by].
    destruct (Z.ltb_spec (key h) (key a)); [done | lia]. }
  rewrite (IH (h :: acc) h); [cbn [rev]; by rewrite <- app_assoc | done |].
  constructor; [lia|].
  eapply Forall_impl; [exact Hacc|]. intros a Ha. cbn in Ha. lia.
Qed.

(** Under a comparator that is the difference of a key on the elements of
    the array, the sort is the stable sort by that key. *)
Lemma sort_consistent {A} (cmp : A → A → Z) (key : A → Z) (l : list A) :
  (∀ a b, a ∈ l → b ∈ l → cmp a b = (key a - key b)%Z) →
  sort cmp l = sort_by key l.
Proof.
  intros Hcmp. unfold sort, sort_by.
  assert (Forall (λ a, a ∈ l) l) as Hall by (by apply Forall_forall).
  destruct l as [|e0 [|e1 rest]]; [done | done |].
  cbn [make_run].
  set (n := run_rest cmp (cmp e1 e0 <? 0)%Z e1 rest).
  set (P := λ a, a ∈ e0 :: e1 :: rest) in *.
  pose proof Hall as Hall'.
  apply Forall_cons in Hall' as [P0 Hall']. pose proof Hall' as Hrest.
  apply Forall_cons in Hrest as [P1 Hrest].
  trans (fold_left (λ acc e, insert_by key e acc)
           ((e0 :: e1 :: take n rest) ++ drop n rest) []);
    [|by cbn [app]; rewrite take_drop].
  rewrite fold_left_app.
  assert ((if (cmp e1 e0 <? 0)%Z then rev (e0 :: e1 :: take n rest)
           else e0 :: e1 :: take n rest)
          = fold_left (λ acc e, insert_by key e acc)
              (e1 :: take n rest) [e0]) as Hrun.
  { unfold n.
    rewrite (Hcmp e1 e0 P1 P0).
    destruct (Z.ltb_spec (key e1 - key e0) 0) as [Hneg|Hpos].
    - rewrite (fold_insert_by_descending key (e1 :: _) [e0] e0).
      + cbn [rev]. by rewrite <- !app_assoc.
      + constructor; [|constructor; lia].
        by apply (run_rest_descending cmp key P Hcmp).
      + repeat constructor. lia.
    - rewrite (fold_insert_by_ascending key (e1 :: _) [e0] e0); [done | |].
      + constructor; [|constructor; lia].
        by apply (run_rest_ascending cmp key P Hcmp).
      + repeat constructor. lia. }
  change (fold_left (λ acc e, insert_by key e acc)
            (e0 :: e1 :: take n rest) [])
    with (fold_left (λ acc e, insert_by key e acc) (e1 :: take n rest) [e0]).
  rewrite Hrun.
  apply (fold_binary_insert_by cmp key P Hcmp).
  - rewrite <- (take_drop n rest) in Hrest. by apply Forall_app in Hrest as [_ ?].
  - rewrite <- Hrun.
    assert (Forall P (e0 :: e1 :: take n rest)) as Hpre.
    { constructor; [done|]. constructor; [done|].
      rewrite <- (take_drop n rest) in Hrest.
      by apply Forall_app in Hrest as [? _]. }
    destruct (cmp e1 e0 <? 0)%Z; [|done].
    by rewrite <- Permutation_rev.
  - apply fold_insert_by_sorted. repeat constructor.
Qed.

(** With at least one one-character span the date is read from the first
    line of glyphs. *)
Lemma scrapePostDate_glyphs a :
  singleCharSpans a ≠ [] →
  scrapePostDate (Some a) = spaced (text <$> first_line a).
Proof.
  intros Hne. unfold scrapePostDate, first_line.
  destruct (singleCharSpans a) as [|s ss]; [done|].
  pose proof (length_sort compare_glyphs (glyph_of <$> s :: ss)) as Hlen.
  destruct (sort compare_glyphs (glyph_of <$> s :: ss)) as [|first rest];
    [done|].
  apply date_parts_spaced.
Qed.

(** Glyphs on one line are sorted by their left edge, and the band of the
    first holds them all. *)
Lemma first_line_one_line a :
  one_line (glyph_of <$> singleCharSpans a) →
  first_line a = by_left (glyph_of <$> singleCharSpans a).
Proof.
  intros Hline. unfold first_line, by_left.
  set (glyphs := glyph_of <$> singleCharSpans a) in *.
  assert (∀ g h, g ∈ glyphs → h ∈ glyphs → (Z.abs (y g - y h) < 5)%Z)
    as Hband.
  { intros g h Hg Hh. unfold one_line in Hline.
    rewrite Forall_forall in Hline.
    specialize (Hline g Hg). rewrite Forall_forall in Hline.
    exact (Hline h Hh). }
  rewrite (sort_consistent compare_glyphs x glyphs).
  2:{ intros g h Hg Hh. unfold compare_glyphs.
      pose proof (Hband g h Hg Hh).
      destruct (Z.gtb_spec (Z.abs (y g - y h)) 5); [lia | done]. }
  pose proof (sort_by_perm x glyphs) as Hperm.
  destruct (sort_by x glyphs) as [|first rest] eqn:Hsorted; [done|].
  rewrite <- Hsorted in *.
  assert (first ∈ glyphs) as Hfirst.
  { rewrite <- Hperm, Hsorted. apply list_elem_of_here. }
  clear Hsorted.
  assert (Forall (λ g, g ∈ glyphs) (sort_by x glyphs)) as Hall.
  { apply Forall_forall. intros g Hg. by rewrite <- Hperm. }
  clear Hperm.
  induction (sort_by x glyphs) as [|g l IH]; [done|].
  apply Forall_cons in Hall as [Hg Hall]. cbn [List.filter].
  pose proof (Hband g first Hg Hfirst).
  destruct (Z.ltb_spec (Z.abs (y g - y first)) 5); [|lia].
  f_equal. by apply IH.
Qed.

(** C4, as the code has it. Only spans whose trimmed text is one code unit
    long count as glyphs. When there is at least one, the glyphs are
    sorted with the code's comparator, those within 5 pixels of the top
    of the first are kept, and the date is their texts in that order,
    with a space between two consecutive glyphs exactly when one contains
    a digit and the other does not. When all glyphs lie within 5 pixels
    of each other, the glyphs kept are all of them from left to right,
    glyphs with the same left edge in document order: [by_left] is a
    rearrangement of its argument in which no glyph stands before one
    further left. The spans "d" (left 20) and "1" (left 10) on one line,
    in this document order, give "1 d". Glyphs at tops 8, 4 and 0 with
    lefts 10, 20 and 30 compare as an ascending run, stay in this order,
    and the third, 8 pixels above the first, is dropped. A glyph "x" 20
    pixels below "8" and "h" is sorted behind them, although it is the
    leftmost and the first in the document, and dropped. The glyphs "8"
    and "h" give "8 h"; next to "8" the three-character span "hrs" is not
    a glyph and the date is "8"; the glyphs "8", "h", "r", "s" give
    "8 hrs". *)
Theorem C4_date_glyph_spacing :
  (∀ a, singleCharSpans a ≠ [] →
        scrapePostDate (Some a) = spaced (text <$> first_line a)) ∧
  (∀ a, singleCharSpans a ≠ [] →
        one_line (glyph_of <$> singleCharSpans a) →
        scrapePostDate (Some a)
        = spaced (text <$> by_left (glyph_of <$> singleCharSpans a))) ∧
  (∀ l, by_left l ≡ₚ l ∧ StronglySorted (λ g h, x g ≤ x h)%Z (by_left l)) ∧
  scrapePostDate
    (Some (mkAnchor 0 "1d" [mkSpan "d" 0 20; mkSpan "1" 0 10])) = "1 d" ∧
  scrapePostDate
    (Some (mkAnchor 0 "abc" [mkSpan "a" 8 10; mkSpan "b" 4 20;
                             mkSpan "c" 0 30])) = "ab" ∧
  scrapePostDate
    (Some (mkAnchor 0 "x8h" [mkSpan "x" 20 5; mkSpan "8" 0 10;
                             mkSpan "h" 0 20])) = "8 h" ∧
  scrapePostDate
    (Some (mkAnchor 0 "8h" [mkSpan "8" 0 10; mkSpan "h" 0 20])) = "8 h" ∧
  scrapePostDate
    (Some (mkAnchor 0 "8hrs" [mkSpan "8" 0 10; mkSpan "hrs" 0 20])) = "8" ∧
  scrapePostDate
    (Some (mkAnchor 0 "8hrs" [mkSpan "8" 0 10; mkSpan "h" 0 20;
                              mkSpan "r" 0 30; mkSpan "s" 0 40])) = "8 hrs".
Proof.
  split; [exact scrapePostDate_glyphs|].
  split.
  { intros a Hne Hline.
    by rewrite scrapePostDate_glyphs, first_line_one_line. }
  split.
  { intros l. split; [apply sort_by_perm | apply sort_by_sorted]. }
  repeat split; reflexivity.
Qed.

Lemma C4_date_glyph_spacing_witness :
  scrapePostDate
    (Some (mkAnchor 0 "2 h" [mkSpan "h" 3 20; mkSpan " " 0 15; mkSpan "2" 1 10]))
  = spaced (text <$> first_line
      (mkAnchor 0 "2 h" [mkSpan "h" 3 20; mkSpan " " 0 15; mkSpan "2" 1 10])) ∧
  scrapePostDate
    (Some (mkAnchor 0 "2 h" [mkSpan "h" 3 20; mkSpan " " 0 15; mkSpan "2" 1 10]))
  = spaced (text <$> by_left
      (glyph_of <$> singleCharSpans
         (mkAnchor 0 "2 h" [mkSpan "h" 3 20; mkSpan " " 0 15;
                            mkSpan "2" 1 10]))).
Proof.
  split.
  - apply (proj1 C4_date_glyph_spacing). vm_compute. discriminate.
  - apply (proj1 (proj2 C4_date_glyph_spacing)).
    + vm_compute. discriminate.
    + vm_compute. repeat constructor.
Defined.

(** C4 as the specification states it fails on both of its examples: the
    glyphs "8" and "h" do not give "8h", and the spans "8" and "hrs" do
    not give "8 hrs". *)
Lemma C4_examples_counterexample :
  scrapePostDate
    (Some (mkAnchor 0 "8h" [mkSpan "8" 0 10; mkSpan "h" 0 20])) ≠ "8h" ∧
  scrapePostDate
    (Some (mkAnchor 0 "8hrs" [mkSpan "8" 0 10; mkSpan "hrs" 0 20])) ≠ "8 hrs".
Proof. split; vm_compute; discriminate. Qed.

End DateFacts.

(** ** Sentinels and engagement *)

Module ExtractorFacts.
Import JS Scraper.

(** C6. Sentinel totality. Every extractor is a total function of its
    container. On an absent container, and on a container with nothing in
    it, the date extractor returns [DATE_NOT_FOUND], the author/location
    extractor returns [AUTHOR_NOT_FOUND] and [LOCATION_NOT_FOUND], and the
    engagement extractor returns its defaults: no first liker and zero
    counts. The date sentinel is also returned whenever the link has no
    one-character span and only blank text. *)
Theorem C6_sentinel_totality :
  scrapePostDate None = DATE_NOT_FOUND ∧
  (∀ a, singleCharSpans a = [] → trim (anchor_textContent a) = "" →
        scrapePostDate (Some a) = DATE_NOT_FOUND) ∧
  (∀ datePermalink,
     scrapePostAuthorAndMeta None datePermalink
     = mkMeta AUTHOR_NOT_FOUND LOCATION_NOT_FOUND) ∧
  (∀ datePermalink,
     scrapePostAuthorAndMeta (Some (mkHeader None [])) datePermalink
     = mkMeta AUTHOR_NOT_FOUND LOCATION_NOT_FOUND) ∧
  scrapeEngagement None = mkEngagement (mkLikes "" (Num 0)) (Num 0) ∧
  scrapeEngagement (Some (mkStats "" None))
  = mkEngagement (mkLikes "" (Num 0)) (Num 0).
Proof.
  repeat split; try reflexivity.
  intros a Hspans Htext. unfold scrapePostDate. by rewrite Hspans, Htext.
Qed.

Lemma C6_sentinel_totality_witness :
  scrapePostDate (Some (mkAnchor 7 "   " [mkSpan "  " 0 0])) = DATE_NOT_FOUND.
Proof.
  apply (proj1 (proj2 C6_sentinel_totality)); reflexivity.
Defined.

(** *** The likers pattern on a text of the expected form *)

Lemma chars_app (a b : string) : chars (a +:+ b) = chars a ++ chars b.
Proof.
  induction a as [|x a IH]; [done|].
  change (x :: chars (a +:+ b) = x :: chars a ++ chars b). by rewrite IH.
Qed.

Lemma str_chars (s : string) : str (chars s) = s.
Proof. apply String.string_of_list_ascii_of_string. Qed.

Lemma is_count_not_space c : is_count c = true → Ascii.eqb " " c = false.
Proof. destruct c as [[] [] [] [] [] [] [] []]; done. Qed.

Lemma is_count_not_terminator c :
  is_count c = true → is_line_terminator c = false.
Proof. destruct c as [[] [] [] [] [] [] [] []]; done. Qed.

Lemma likers_tail_none l :
  starts_with (chars " and ") l = false → likers_tail l = None.
Proof. unfold likers_tail. by intros ->. Qed.

Lemma likers_tail_count count plural :
  count ≠ [] → Forall (λ c, is_count c = true) count →
  likers_tail (chars " and " ++ count ++ others plural) = Some count.
Proof.
  intros Hne Hall. unfold likers_tail.
  change (starts_with (chars " and ") (chars " and " ++ count ++ others plural))
    with true. cbv iota.
  change (drop 5 (chars " and " ++ count ++ others plural))
    with (count ++ others plural).
  destruct (TreeFacts.take_while_all is_count count (others plural) Hall)
    as [-> ->]; [by destruct plural|].
  destruct count as [|d ds]; [done|]. by destruct plural.
Qed.

Lemma starts_with_count p0 p count rest :
  is_count p0 = false → count ≠ [] →
  Forall (λ c, is_count c = true) count →
  starts_with (p0 :: p) (count ++ rest) = false.
Proof.
  intros Hp Hne Hall. destruct Hall as [|c count Hc _]; [done|].
  cbn [app starts_with].
  assert (Ascii.eqb p0 c = false) as ->; [|done].
  apply Ascii.eqb_neq. intros ->. congruence.
Qed.

Lemma likers_group_count count plural : ∀ acc,
  Forall (λ c, is_count c = true) count →
  likers_group acc (count ++ others plural) = None.
Proof.
  induction count as [|c count IH]; intros acc Hall.
  - by destruct plural.
  - inversion Hall as [|? ? Hc Hall']; subst.
    cbn [app likers_group]. rewrite (is_count_not_terminator c Hc).
    rewrite IH by done. rewrite likers_tail_none; [done|].
    destruct count as [|c' count]; [by destruct plural|].
    by apply (starts_with_count " "%char).
Qed.

(** Past the name no longer first group is possible. *)
Lemma likers_group_rest count plural acc :
  count ≠ [] → Forall (λ c, is_count c = true) count →
  likers_group acc (chars " and " ++ count ++ others plural) = None.
Proof.
  intros Hne Hall.
  pose proof (starts_with_count " "%char (chars "and ") count (others plural)
                eq_refl Hne Hall) as Hs1.
  pose proof (starts_with_count "a"%char (chars "nd ") count (others plural)
                eq_refl Hne Hall) as Hs2.
  pose proof (λ acc, likers_group_count count plural acc Hall) as Hgroup.
  remember (count ++ others plural) as tail eqn:Etail. clear Etail.
  cbn [app chars String.list_ascii_of_string likers_group is_line_terminator].
  rewrite Hgroup.
  rewrite !likers_tail_none; [done|..];
    cbn [chars String.list_ascii_of_string starts_with]; try done.
Qed.

Lemma likers_group_name name : ∀ acc count plural,
  name ≠ [] → Forall (λ c, is_line_terminator c = false) name →
  count ≠ [] → Forall (λ c, is_count c = true) count →
  likers_group acc (name ++ chars " and " ++ count ++ others plural)
  = Some (rev acc ++ name, count).
Proof.
  induction name as [|c name IH]; intros acc count plural Hname Hlt Hne Hall;
    [done|].
  inversion Hlt as [|? ? Hc Hlt']; subst.
  cbn [app likers_group]. rewrite Hc.
  destruct name as [|c' name].
  - cbn [app]. rewrite likers_group_rest, likers_tail_count by done.
    cbn [rev]. done.
  - rewrite (IH (c :: acc)) by done. cbn [rev]. by rewrite <- app_assoc.
Qed.

(** A text made of a name without line breaks, " and ", a run of digits
    and commas and " others" or " other" matches with these two groups. *)
Lemma match_likers_pattern (name count : string) (plural : bool) :
  name ≠ "" → Forall (λ c, is_line_terminator c = false) (chars name) →
  count ≠ "" → Forall (λ c, is_count c = true) (chars count) →
  match_likers (name +:+ " and " +:+ count +:+
                (if plural then " others" else " other"))
  = Some (name, count).
Proof.
  intros Hname Hlt Hcount Hall. unfold match_likers.
  rewrite !chars_app.
  assert (chars name ≠ []) by (by destruct name).
  assert (chars count ≠ []) by (by destruct count).
  destruct (chars name) as [|c cs] eqn:En; [done|].
  cbn [app likers_search].
  change (c :: cs ++ chars " and " ++ chars count ++
            chars (if plural then " others" else " other"))
    with ((c :: cs) ++ chars " and " ++ chars count ++ others plural).
  rewrite likers_group_name by done. cbn [rev app].
  by rewrite <- En, !str_chars.
Qed.

(** *** Specified properties of the engagement extractor *)

Lemma match_likers_nonempty text g : match_likers text = Some g → text ≠ "".
Proof. by intros H ->. Qed.

(** C7, as the code has it. The pattern is matched case-sensitively: a
    label text made of a name, " and ", a run of digits and commas and the
    lowercase word " others" or " other" matches with these two groups. On
    a match [firstLiker] becomes the trimmed first group and [otherCount]
    the [parseInt] of the comma-stripped second group, whatever the number
    heuristic had found. A non-empty label text that does not match and is
    not number-only becomes [firstLiker] whole and leaves [otherCount] as
    the number heuristic set it; this is what happens to
    "Jane and 12 Others". The text "Jane and 12 others" gives the first
    liker "Jane" and the count 12 for every stats text. *)
Theorem C7_likers_label_override :
  (∀ (name count : string) (plural : bool),
     name ≠ "" → Forall (λ c, is_line_terminator c = false) (chars name) →
     count ≠ "" → Forall (λ c, is_count c = true) (chars count) →
     match_likers (name +:+ " and " +:+ count +:+
                   (if plural then " others" else " other"))
     = Some (name, count)) ∧
  (∀ statsText innerText g1 g2,
     match_likers (trim innerText) = Some (g1, g2) →
     likes (scrapeEngagement (Some (mkStats statsText (Some innerText))))
     = mkLikes (trim g1) (parseInt (strip_commas g2))) ∧
  (∀ statsText innerText,
     trim innerText ≠ "" →
     match_likers (trim innerText) = None →
     all_digits (trim innerText) = false →
     likes (scrapeEngagement (Some (mkStats statsText (Some innerText))))
     = mkLikes (trim innerText) (count_heuristic statsText).1) ∧
  (∀ statsText,
     likes (scrapeEngagement
              (Some (mkStats statsText (Some "Jane and 12 others"))))
     = mkLikes "Jane" (Num 12)) ∧
  (∀ statsText,
     likes (scrapeEngagement
              (Some (mkStats statsText (Some "Jane and 12 Others"))))
     = mkLikes "Jane and 12 Others" (count_heuristic statsText).1).
Proof.
  split; [exact match_likers_pattern|].
  split; [|split; [|split]].
  - intros statsText innerText g1 g2 Hmatch.
    unfold scrapeEngagement. cbn [stats_innerText stats_likers].
    destruct (count_heuristic statsText) as [other total]. cbn [likes].
    unfold likers_override.
    pose proof (match_likers_nonempty _ _ Hmatch) as Hne.
    destruct (trim innerText) as [|c t]; [done|]. by rewrite Hmatch.
  - intros statsText innerText Hne Hmatch Hdigits.
    unfold scrapeEngagement. cbn [stats_innerText stats_likers].
    destruct (count_heuristic statsText) as [other total]. cbn [likes fst].
    unfold likers_override.
    destruct (trim innerText) as [|c t]; [done|].
    by rewrite Hmatch, Hdigits.
  - intros statsText. unfold scrapeEngagement.
    cbn [stats_innerText stats_likers].
    by destruct (count_heuristic statsText).
  - intros statsText. unfold scrapeEngagement.
    cbn [stats_innerText stats_likers].
    by destruct (count_heuristic statsText).
Qed.

Lemma C7_likers_label_override_witness :
  match_likers "Ann Lee and 1,204 other" = Some ("Ann Lee", "1,204") ∧
  likes (scrapeEngagement
           (Some (mkStats "3 Comments" (Some " Ann Lee and 1,204 other "))))
  = mkLikes "Ann Lee" (Num 1204) ∧
  likes (scrapeEngagement (Some (mkStats "24" (Some "Ann Lee"))))
  = mkLikes "Ann Lee" (Num 24).
Proof.
  split; [|split].
  - apply (proj1 C7_likers_label_override "Ann Lee" "1,204" false);
      [done | repeat constructor | done | repeat constructor].
  - apply (proj1 (proj2 C7_likers_label_override)
             "3 Comments" " Ann Lee and 1,204 other " "Ann Lee" "1,204").
    reflexivity.
  - apply (proj1 (proj2 (proj2 C7_likers_label_override)) "24" "Ann Lee");
      [done | reflexivity | reflexivity].
Defined.

(** C7 as the specification states it fails: with "Others" capitalised
    the label text is not parsed, the first liker is not "Jane" and the
    count stays the 24 of the number heuristic instead of becoming 12. *)
Lemma C7_case_counterexample :
  firstLiker (likes (scrapeEngagement
                       (Some (mkStats "24" (Some "Jane and 12 Others")))))
  ≠ "Jane" ∧
  otherCount (likes (scrapeEngagement
                       (Some (mkStats "24" (Some "Jane and 12 Others")))))
  ≠ Num 12.
Proof. split; vm_compute; discriminate. Qed.

(** C8. Engagement count heuristic. When the stats text has exactly one
    run of digits, that number is [totalComments] if the text contains
    "comment" in any letter case and 0 otherwise, whatever the likers
    label; without a likers label [otherCount] is 0 in the first case and
    the number in the second. The text "24" gives [otherCount] 24 and
    [totalComments] 0; the text "5 Comments" gives [otherCount] 0 and
    [totalComments] 5. *)
Theorem C8_count_heuristic :
  (∀ statsText run likers,
     digit_runs statsText = [run] →
     totalComments (scrapeEngagement (Some (mkStats statsText likers)))
     = if mentions_comment statsText then or_zero (parseInt run) else Num 0) ∧
  (∀ statsText run,
     digit_runs statsText = [run] →
     likes (scrapeEngagement (Some (mkStats statsText None)))
     = mkLikes "" (if mentions_comment statsText then Num 0
                   else or_zero (parseInt run))) ∧
  scrapeEngagement (Some (mkStats "24" None))
  = mkEngagement (mkLikes "" (Num 24)) (Num 0) ∧
  scrapeEngagement (Some (mkStats "5 Comments" None))
  = mkEngagement (mkLikes "" (Num 0)) (Num 5).
Proof.
  repeat split; try reflexivity.
  - intros statsText run likers Hruns.
    unfold scrapeEngagement, count_heuristic. cbn [stats_innerText].
    rewrite Hruns. by destruct (mentions_comment statsText).
  - intros statsText run Hruns.
    unfold scrapeEngagement, count_heuristic. cbn [stats_innerText].
    rewrite Hruns. by destruct (mentions_comment statsText).
Qed.

Lemma C8_count_heuristic_witness :
  totalComments
    (scrapeEngagement (Some (mkStats "7 comments" (Some "Jane and 12 others"))))
  = Num 7 ∧
  likes (scrapeEngagement (Some (mkStats "1 like" None))) = mkLikes "" (Num 1).
Proof.
  split.
  - apply (proj1 C8_count_heuristic "7 comments" "7"). reflexivity.
  - apply (proj1 (proj2 C8_count_heuristic) "1 like" "1"). reflexivity.
Defined.

End ExtractorFacts.

(** ** The avatar map *)

Module AvatarFacts.
Import JS Tree Scraper.

Lemma assign_other key v a k :
  key ≠ k → own (assign key v a) !! k = own a !! k.
Proof.
  intros Hne. unfold assign.
  destruct (bool_decide (key = "__proto__") && has_prototype a).
  - by destruct v.
  - cbn [own]. by rewrite lookup_insert_ne.
Qed.

Lemma assign_own key v a :
  key ≠ "__proto__" → own (assign key v a) !! key = Some v.
Proof.
  intros Hne. unfold assign. rewrite bool_decide_eq_false_2 by done.
  cbn [andb own]. by rewrite lookup_insert_eq.
Qed.

Lemma visit_articles_app l1 : ∀ l2 av,
  (visit_articles av (l1 ++ l2)).1
  = (visit_articles (visit_articles av l1).1 l2).1.
Proof.
  induction l1 as [|a l1 IH]; intros l2 av; [done|].
  cbn [app visit_articles].
  destruct (visit_article av a) as [av' r].
  specialize (IH l2 av').
  destruct (visit_articles av' (l1 ++ l2)) as [av2 rs2].
  destruct (visit_articles av' l1) as [av1 rs1]. cbn [fst] in *.
  exact IH.
Qed.

Lemma visit_articles_cons a l av :
  (visit_articles av (a :: l)).1
  = (visit_articles (visit_article av a).1 l).1.
Proof.
  cbn [visit_articles]. destruct (visit_article av a) as [av' r].
  cbn [fst]. by destruct (visit_articles av' l).
Qed.

Section OneName.
Variables (k url : string).
Hypothesis url_nonempty : url ≠ "".

Lemma truthy_url : truthy (Str url) = true.
Proof.
  unfold truthy. apply negb_true_iff, String.eqb_neq. exact url_nonempty.
Qed.

(** A comment that is not parsed, is by someone else, or carries no
    avatar leaves the entry of [k] alone. *)
Lemma visit_article_other av a :
  (∀ raw, parse_article a = Some raw → raw_name raw = k →
          art_avatar a = None ∨ art_avatar a = Some "") →
  own (visit_article av a).1 !! k = own av !! k.
Proof.
  intros Hother. unfold visit_article.
  destruct (parse_article a) as [raw|]; [|done]. cbn [fst].
  destruct (decide (raw_name raw = k)) as [Heq|Hne].
  - destruct (Hother raw eq_refl Heq) as [-> | ->]; done.
  - destruct (art_avatar a) as [img|]; [|done].
    destruct (truthy (Str img) && negb (reads_truthy av (raw_name raw)));
      [|done].
    by apply assign_other.
Qed.

Lemma visit_articles_other l : ∀ av,
  (∀ a raw, a ∈ l → parse_article a = Some raw → raw_name raw = k →
            art_avatar a = None ∨ art_avatar a = Some "") →
  own (visit_articles av l).1 !! k = own av !! k.
Proof.
  induction l as [|a l IH]; intros av Hother; [done|].
  rewrite visit_articles_cons, IH.
  - apply visit_article_other. intros raw. apply Hother. by left.
  - intros a' raw' Ha'. apply Hother. by right.
Qed.

(** Once a URL is recorded for [k] no later comment replaces it. *)
Lemma visit_article_recorded av a :
  own av !! k = Some (Str url) →
  own (visit_article av a).1 !! k = Some (Str url).
Proof.
  intros Hk. unfold visit_article.
  destruct (parse_article a) as [raw|]; [|done]. cbn [fst].
  destruct (art_avatar a) as [img|]; [|done].
  destruct (decide (raw_name raw = k)) as [Heq|Hne].
  - unfold reads_truthy. rewrite Heq, Hk, truthy_url.
    by rewrite andb_false_r.
  - destruct (truthy (Str img) && negb (reads_truthy av (raw_name raw)));
      [|done].
    by rewrite assign_other.
Qed.

Lemma visit_articles_recorded l : ∀ av,
  own av !! k = Some (Str url) →
  own (visit_articles av l).1 !! k = Some (Str url).
Proof.
  induction l as [|a l IH]; intros av Hk; [done|].
  rewrite visit_articles_cons. by apply IH, visit_article_recorded.
Qed.

(** The first comment by [k] that carries a URL records it. *)
Lemma visit_article_first av a raw :
  parse_article a = Some raw → raw_name raw = k →
  art_avatar a = Some url →
  k ∉ object_prototype_keys →
  own av !! k = None →
  own (visit_article av a).1 !! k = Some (Str url).
Proof.
  intros Hparse Hname Havatar Hproto Hnone. unfold visit_article.
  rewrite Hparse, Havatar, Hname, truthy_url. cbn [fst andb].
  unfold reads_truthy. rewrite Hnone.
  rewrite (bool_decide_eq_false_2 _ Hproto), andb_false_r. cbn [negb].
  apply assign_own. intros ->. apply Hproto.
  unfold object_prototype_keys. set_solver.
Qed.
End OneName.

Lemma own_initial document postAuthorName k :
  k ≠ postAuthorName ∨ authorAvatarImage document = None →
  own (match authorAvatarImage document with
       | Some href =>
           if negb (String.eqb postAuthorName AUTHOR_NOT_FOUND)
           then assign postAuthorName (from_option Str Null href) empty_object
           else empty_object
       | None => empty_object
       end) !! k = None.
Proof.
  intros [Hne | ->]; [|done].
  destruct (authorAvatarImage document) as [href|]; [|done].
  destruct (negb _); [|done]. by rewrite assign_other.
Qed.

Lemma own_result document commentArticles postAuthorName k :
  k ≠ "fallback" →
  own (avatars (scrapeCommentsAndAvatars document (Some commentArticles)
                  postAuthorName)) !! k
  = own (visit_articles
           (match authorAvatarImage document with
            | Some href =>
                if negb (String.eqb postAuthorName AUTHOR_NOT_FOUND)
                then assign postAuthorName (from_option Str Null href)
                            empty_object
                else empty_object
            | None => empty_object
            end) commentArticles).1 !! k.
Proof.
  intros Hne. unfold scrapeCommentsAndAvatars.
  destruct (visit_articles _ commentArticles) as [av rs]. cbn [fst].
  destruct rs; cbn [avatars]; by rewrite assign_other.
Qed.

(** C9, as the code has it. Let a comment be the first parsed comment by
    its author that carries a non-empty avatar URL. Unless the author's
    name is the reserved key "fallback" or a property name inherited from
    [Object.prototype], or the author is the post author and the header
    image was found (then the header's avatar was recorded first), the
    returned map holds that URL for the name, whatever avatars later
    comments by the same author carry. *)
Theorem C9_avatar_first_seen_wins
    (document : Document) (pre post : list Article) (a : Article)
    (postAuthorName : string) (raw : RawComment) (url : string) :
  parse_article a = Some raw →
  art_avatar a = Some url →
  url ≠ "" →
  (∀ a' raw', a' ∈ pre → parse_article a' = Some raw' →
              raw_name raw' = raw_name raw →
              art_avatar a' = None ∨ art_avatar a' = Some "") →
  raw_name raw ≠ "fallback" →
  raw_name raw ∉ object_prototype_keys →
  raw_name raw ≠ postAuthorName ∨ authorAvatarImage document = None →
  own (avatars (scrapeCommentsAndAvatars document (Some (pre ++ a :: post))
                  postAuthorName)) !! raw_name raw
  = Some (Str url).
Proof.
  intros Hparse Havatar Hurl Hfirst Hfallback Hproto Hheader.
  rewrite own_result by done.
  rewrite visit_articles_app, visit_articles_cons.
  apply visit_articles_recorded; [done|].
  apply (visit_article_first _ _ Hurl _ _ raw); try done.
  rewrite visit_articles_other by done.
  by apply own_initial.
Qed.

Lemma C9_avatar_first_seen_wins_witness :
  own (avatars
         (scrapeCommentsAndAvatars (mkDocument (Some (Some "bob-header.png")))
            (Some ([mkArticle 1 (Some "Comment by Ann 9 hours ago")
                              (Some "first") None]
                   ++ mkArticle 1 (Some "Comment by Ann 5 hours ago")
                                (Some "second") (Some "ann-1.png")
                   :: [mkArticle 2 (Some "Reply by Ann to Bob's comment 1 hour ago")
                                 (Some "third") (Some "ann-2.png")]))
            "Bob")) !! "Ann"
  = Some (Str "ann-1.png").
Proof.
  apply (C9_avatar_first_seen_wins
           (mkDocument (Some (Some "bob-header.png")))
           [mkArticle 1 (Some "Comment by Ann 9 hours ago") (Some "first") None]
           [mkArticle 2 (Some "Reply by Ann to Bob's comment 1 hour ago")
                      (Some "third") (Some "ann-2.png")]
           (mkArticle 1 (Some "Comment by Ann 5 hours ago") (Some "second")
                      (Some "ann-1.png"))
           "Bob" (mkRaw "Ann" "second" 1) "ann-1.png").
  - reflexivity.
  - reflexivity.
  - discriminate.
  - intros a' raw' Hin _ _. apply list_elem_of_singleton in Hin. subst a'.
    left. reflexivity.
  - discriminate.
  - unfold object_prototype_keys. rewrite !not_elem_of_cons.
    repeat split; try discriminate. apply not_elem_of_nil.
  - left. discriminate.
Defined.

(** C9 as the specification states it fails for the post author: two
    parsed comments by "Ann" carry different avatar URLs, and the map
    keeps neither the first nor the second but the avatar found in the
    post header. *)
Lemma C9_post_author_counterexample :
  let first := mkArticle 1 (Some "Comment by Ann 5 hours ago")
                         (Some "hello") (Some "ann-1.png") in
  let second := mkArticle 1 (Some "Comment by Ann 2 hours ago")
                          (Some "again") (Some "ann-2.png") in
  raw_name <$> parse_article first = Some "Ann" ∧
  raw_name <$> parse_article second = Some "Ann" ∧
  own (avatars
         (scrapeCommentsAndAvatars (mkDocument (Some (Some "ann-header.png")))
            (Some [first; second]) "Ann")) !! "Ann"
  ≠ Some (Str "ann-1.png").
Proof.
  cbv zeta. split; [reflexivity|]. split; [reflexivity|].
  vm_compute. discriminate.
Qed.

(** The extractor always returns a comment tree, and the tree has no empty
    [replies] array, whatever the container holds. *)
Lemma scrape_comments_no_empty document commentsDiv postAuthorName :
  ∃ tree,
    comments (scrapeCommentsAndAvatars document commentsDiv postAuthorName)
    = Some tree ∧
    Forall Shape.no_empty_replies tree.
Proof.
  unfold scrapeCommentsAndAvatars.
  destruct commentsDiv as [commentArticles|]; [|by exists []].
  destruct (visit_articles _ commentArticles) as [av rs].
  destruct rs as [|r rs]; [by exists []|]. cbn [comments].
  exists (map Shape.to_comment
            (Shape.forest_of_records (length (r :: rs)) (r :: rs))).
  split; [apply TreeFacts.build_comments_forest|].
  apply Forall_forall. intros c Hc.
  apply list_elem_of_In, in_map_iff in Hc as (t & <- & _).
  apply TreeFacts.to_comment_no_empty.
Qed.

(** C5 on the code. With a comments container the returned map has the key
    "fallback" holding the placeholder URL, which is not empty, whether or
    not any comment was parsed. Without a container (null) the extractor
    returns the empty map: the key "fallback" is missing. *)
Theorem C5_fallback_missing_without_container :
  (∀ document postAuthorName,
     own (avatars (scrapeCommentsAndAvatars document None postAuthorName))
       !! "fallback" = None) ∧
  (∀ document commentArticles postAuthorName,
     own (avatars (scrapeCommentsAndAvatars document (Some commentArticles)
                     postAuthorName)) !! "fallback"
     = Some (Str fallback_url)) ∧
  fallback_url ≠ "".
Proof.
  split; [done|]. split; [|done].
  intros document commentArticles postAuthorName.
  unfold scrapeCommentsAndAvatars.
  destruct (visit_articles _ commentArticles) as [av rs].
  destruct rs; cbn [avatars]; by apply assign_own.
Qed.

End AvatarFacts.

(** ** The viewer's stepping *)

Module ViewerFacts.
Import Tree Viewer.

Lemma at_index_in_range l i :
  (0 ≤ i < Z.of_nat (length l))%Z → is_Some (at_index l i).
Proof.
  intros Hi. unfold at_index.
  destruct (Z.ltb_spec i 0); [lia|].
  apply lookup_lt_is_Some. lia.
Qed.

Lemma at_index_bound l i c :
  at_index l i = Some c → (0 ≤ i < Z.of_nat (length l))%Z.
Proof.
  unfold at_index. destruct (Z.ltb_spec i 0); [done|].
  intros Hc%lookup_lt_Some. lia.
Qed.

Lemma updateOverlayComments_in_range st :
  in_range st →
  ∃ st', updateOverlayComments st = Some st' ∧
         flatCommentList st' = flatCommentList st ∧
         currentCommentIndex st' = currentCommentIndex st.
Proof.
  intros Hr. unfold in_range in Hr. unfold updateOverlayComments.
  destruct (Z.eqb_spec (currentCommentIndex st) 0); [by eexists|].
  destruct (at_index_in_range (flatCommentList st) (currentCommentIndex st - 1))
    as [c ->]; [lia|]. by eexists.
Qed.

Lemma handleNextComment_in_range renders st :
  in_range st →
  handleNextComment renders st = Throws ∨
  ∃ st', handleNextComment renders st = Returns st' ∧
         flatCommentList st' = flatCommentList st ∧ in_range st'.
Proof.
  intros Hr. unfold handleNextComment.
  destruct (Z.ltb_spec (currentCommentIndex st)
              (Z.of_nat (length (flatCommentList st)))) as [Hlt|Hge];
    [|by right; exists st].
  unfold in_range in Hr.
  destruct (at_index_in_range (flatCommentList st) (currentCommentIndex st))
    as [c ->]; [lia|].
  destruct (renders c); [right | by left].
  edestruct updateOverlayComments_in_range as (st' & -> & Hflat & Hidx);
    [|exists st'; split; [done|]].
  - unfold in_range. simpl. lia.
  - simpl in Hflat, Hidx. split; [done|].
    unfold in_range. rewrite Hflat, Hidx. lia.
Qed.

Lemma handlePreviousComment_in_range st :
  in_range st →
  ∃ st', handlePreviousComment st = Some st' ∧
         flatCommentList st' = flatCommentList st ∧ in_range st'.
Proof.
  intros Hr. unfold handlePreviousComment.
  destruct (Z.ltb_spec 0 (currentCommentIndex st)) as [Hlt|Hge];
    [|by exists st].
  unfold in_range in Hr.
  edestruct updateOverlayComments_in_range as (st' & -> & Hflat & Hidx);
    [|exists st'; split; [done|]].
  - unfold in_range. simpl. lia.
  - simpl in Hflat, Hidx. split; [done|].
    unfold in_range. rewrite Hflat, Hidx. lia.
Qed.

Lemma handle_in_range renders s st :
  in_range st →
  handle renders s st = Throws ∨
  ∃ st', handle renders s st = Returns st' ∧
         flatCommentList st' = flatCommentList st ∧ in_range st'.
Proof.
  intros Hr. destruct s; cbn [handle].
  - by apply handleNextComment_in_range.
  - destruct (handlePreviousComment_in_range st Hr) as (st' & -> & H).
    right. by exists st'.
Qed.

Lemma run_in_range renders steps : ∀ st,
  in_range st →
  ∃ st', run renders steps st = Some st' ∧
         flatCommentList st' = flatCommentList st ∧ in_range st'.
Proof.
  induction steps as [|s steps IH]; intros st Hr; [by exists st|].
  cbn [run].
  destruct (handle_in_range renders s st Hr)
    as [-> | (st1 & -> & Hflat1 & Hr1)]; [by apply IH|].
  destruct (IH st1 Hr1) as (st' & Hrun & Hflat & Hr').
  exists st'. split; [done|]. split; [congruence | done].
Qed.

(** C10. Stepping bounds of the viewer. From the state the viewer is in
    once the comments are loaded, every sequence of forward and backward
    steps runs without a read outside the flattened list, whichever
    comments [createCommentElement] fails on (such a step changes
    nothing), leaves the flattened list as loaded and keeps
    [currentCommentIndex] between 0 and the length of that list. A
    forward step with the index equal to the length, and a backward step
    with the index equal to 0, return and leave the whole state as it is:
    the index, the rendered comments, the overlay and the counter. *)
Theorem C10_stepping_bounds :
  (∀ renders postComments steps,
     ∃ st, run renders steps (loaded postComments) = Some st ∧
           flatCommentList st = flattenComments postComments 0 ∧
           (0 ≤ currentCommentIndex st
              ≤ Z.of_nat (length (flattenComments postComments 0)))%Z) ∧
  (∀ renders st,
     currentCommentIndex st = Z.of_nat (length (flatCommentList st)) →
     handleNextComment renders st = Returns st) ∧
  (∀ st, currentCommentIndex st = 0%Z → handlePreviousComment st = Some st).
Proof.
  split; [|split].
  - intros renders postComments steps.
    destruct (run_in_range renders steps (loaded postComments))
      as (st & Hrun & Hflat & Hr).
    { unfold in_range, loaded. simpl. lia. }
    exists st. split; [done|]. split; [done|].
    unfold in_range in Hr. by rewrite Hflat in Hr.
  - intros renders st Hidx. unfold handleNextComment.
    rewrite Hidx, Z.ltb_irrefl. done.
  - intros st Hidx. unfold handlePreviousComment. by rewrite Hidx.
Qed.

Lemma C10_stepping_bounds_witness :
  handleNextComment (λ _, false)
    (mkViewer [mkFlat (mkComment "A" "a" None) 0] 1
              [mkFlat (mkComment "A" "a" None) 0]
              [mkFlat (mkComment "A" "a" None) 0] (Some 1%Z))
  = Returns (mkViewer [mkFlat (mkComment "A" "a" None) 0] 1
                      [mkFlat (mkComment "A" "a" None) 0]
                      [mkFlat (mkComment "A" "a" None) 0] (Some 1%Z)) ∧
  handlePreviousComment (loaded [mkComment "A" "a" None])
  = Some (loaded [mkComment "A" "a" None]).
Proof.
  split.
  - apply (proj1 (proj2 C10_stepping_bounds)). reflexivity.
  - apply (proj2 (proj2 C10_stepping_bounds)). reflexivity.
Defined.

End ViewerFacts.

(** ** Further properties of the comment tree *)

Module TreeExtras.
Import Tree Shape Measures TreeFacts.

Lemma payload_records_of_tree t : ∀ lvl lvl',
  map raw_payload (records_of_tree lvl t)
  = map raw_payload (records_of_tree lvl' t).
Proof.
  induction t as [n m kids IH] using rose_ind. intros lvl lvl'.
  rewrite !records_of_tree_node. cbn [map]. f_equal.
  induction IH as [|k ks Hk _ IHks]; [done|].
  rewrite !records_of_cons, !map_app, (Hk (S lvl) (S lvl')), IHks. done.
Qed.

(** The denoted forest lists the records in their order. *)
Lemma payload_forest_of_records fuel : ∀ rs lvl,
  length rs ≤ fuel →
  map raw_payload (records_of lvl (forest_of_records fuel rs))
  = map raw_payload rs.
Proof.
  induction fuel as [|fuel IH]; intros [|r rs] lvl Hlen; try done.
  { simpl in Hlen. lia. }
  cbn [forest_of_records]. simpl in Hlen.
  pose proof (length_take_while (λ x, depth r <? depth x) rs).
  pose proof (length_drop_while (λ x, depth r <? depth x) rs).
  rewrite records_of_cons, records_of_tree_node.
  cbn [app map]. rewrite map_app, !IH by lia.
  rewrite <- map_app, take_drop_while. done.
Qed.

Lemma flat_payload_raw (l : list FlatComment) :
  map flat_payload l = map raw_payload (map raw_of_flat l).
Proof. rewrite map_map. done. Qed.

(** X1. The builder neither drops, duplicates nor reorders comments:
    flattening the returned tree lists the names and messages of the raw
    comments in their original order. *)
Theorem X1_builder_keeps_document_order (rs : list RawComment) :
  ∃ tree,
    build_comments rs = Some tree ∧
    map flat_payload (flattenComments tree 0) = map raw_payload rs.
Proof.
  exists (map to_comment (forest_of_records (length rs) rs)).
  split; [apply build_comments_forest|].
  rewrite flat_payload_raw, flattenComments_forest.
  by apply payload_forest_of_records.
Qed.

(** *** Well-nested depth sequences *)

Lemma climbs_app_l (a b : list nat) : climbs (a ++ b) → climbs a.
Proof.
  induction a as [|x a IH]; [done|]. destruct a as [|y a]; [done|].
  cbn [app climbs]. intros [Hxy H]. split; [done|]. by apply IH.
Qed.

Lemma climbs_app_r (a b : list nat) : climbs (a ++ b) → climbs b.
Proof.
  induction a as [|x a IH]; [done|]. destruct a as [|y a].
  - cbn [app]. destruct b; [done|]. by intros [_ H].
  - cbn [app climbs]. intros [_ H]. by apply IH.
Qed.

Lemma climbs_tail x l : climbs (x :: l) → climbs l.
Proof. destruct l; [done|]. by intros [_ H]. Qed.

(** The levels of the denoted forest of a well-nested sequence are the
    depths counted from the depth of the first record. *)
Lemma records_of_well_nested fuel : ∀ rs d0 lvl,
  length rs ≤ fuel →
  Forall (λ r, d0 ≤ depth r) rs →
  match rs with r :: _ => depth r = d0 | [] => True end →
  climbs (map depth rs) →
  records_of lvl (forest_of_records fuel rs)
  = map (λ r, mkRaw (raw_name r) (raw_message r) (depth r - d0 + lvl)) rs.
Proof.
  induction fuel as [|fuel IH]; intros [|r rs] d0 lvl Hlen Hall Hhead Hclimb;
    try done.
  { simpl in Hlen. lia. }
  subst d0. cbn [forest_of_records]. simpl in Hlen.
  pose proof (take_drop_while (λ x, depth r <? depth x) rs) as Hsplit.
  pose proof (take_while_Forall (λ x, depth r <? depth x) rs) as Hpre.
  pose proof (drop_while_head (λ x, depth r <? depth x) rs) as Hpost.
  set (pre := take_while _ rs) in *. set (post := drop_while _ rs) in *.
  clearbody pre post. subst rs.
  apply Forall_cons in Hall as [_ Hall]. apply Forall_app in Hall as [Hall1 Hall2].
  rewrite length_app in Hlen.
  cbn [map] in Hclimb. rewrite map_app in Hclimb.
  rewrite records_of_cons, records_of_tree_node.
  rewrite (IH pre (S (depth r)) (S lvl)); [|lia|..].
  - rewrite (IH post (depth r) lvl); [|lia|done|..].
    + cbn [app map]. rewrite map_app. f_equal; [f_equal; lia|]. f_equal.
      apply map_ext_Forall. eapply Forall_impl; [exact Hpre|].
      simpl. intros x Hx. apply Nat.ltb_lt in Hx. f_equal. lia.
    + destruct post as [|y post]; [done|].
      specialize (Hpost y post eq_refl). apply Nat.ltb_ge in Hpost.
      apply Forall_cons in Hall2 as [Hy _]. lia.
    + apply climbs_tail in Hclimb. by apply climbs_app_r in Hclimb.
  - eapply Forall_impl; [exact Hpre|]. simpl. intros x Hx.
    by apply Nat.ltb_lt in Hx.
  - destruct pre as [|p pre]; [done|].
    apply Forall_cons in Hpre as [Hp _]. apply Nat.ltb_lt in Hp.
    cbn [map app climbs] in Hclimb. destruct Hclimb as [Hstep _]. lia.
  - apply climbs_tail in Hclimb. by apply climbs_app_l in Hclimb.
Qed.

(** X2. On a well-nested depth sequence (no record shallower than the
    first, no record more than one deeper than its predecessor) the
    builder turns depths into levels: flattening the returned tree gives
    back the records, each at its depth counted from the first record's
    depth. *)
Theorem X2_levels_are_relative_depths (rs : list RawComment) :
  well_nested (map depth rs) →
  ∃ tree,
    build_comments rs = Some tree ∧
    map raw_of_flat (flattenComments tree 0)
    = map (λ r, mkRaw (raw_name r) (raw_message r) (depth r - base_depth rs))
          rs.
Proof.
  intros Hwell.
  exists (map to_comment (forest_of_records (length rs) rs)).
  split; [apply build_comments_forest|].
  rewrite flattenComments_forest.
  rewrite (records_of_well_nested _ rs (base_depth rs) 0); [|done|..].
  - apply map_ext. intros r. f_equal. lia.
  - destruct rs as [|r rs]; [done|]. destruct Hwell as [Hall _].
    constructor; [done|]. apply Forall_forall. intros x Hx.
    rewrite Forall_forall in Hall. apply Hall.
    apply list_elem_of_In, in_map, list_elem_of_In, Hx.
  - by destruct rs.
  - destruct rs as [|r rs]; [done|]. by destruct Hwell.
Qed.

Lemma X2_levels_are_relative_depths_witness :
  ∃ tree,
    build_comments [mkRaw "A" "a" 3; mkRaw "B" "b" 4; mkRaw "C" "c" 5;
                    mkRaw "D" "d" 3] = Some tree ∧
    map raw_of_flat (flattenComments tree 0)
    = [mkRaw "A" "a" 0; mkRaw "B" "b" 1; mkRaw "C" "c" 2; mkRaw "D" "d" 0].
Proof.
  apply (X2_levels_are_relative_depths
           [mkRaw "A" "a" 3; mkRaw "B" "b" 4; mkRaw "C" "c" 5; mkRaw "D" "d" 3]).
  simpl. repeat split; try lia. repeat constructor; lia.
Defined.

Lemma forest_same_depth fuel : ∀ rs d,
  length rs ≤ fuel → Forall (λ r, depth r = d) rs →
  forest_of_records fuel rs
  = map (λ r, Node (raw_name r) (raw_message r) []) rs.
Proof.
  induction fuel as [|fuel IH]; intros [|r rs] d Hlen Hall; try done.
  { simpl in Hlen. lia. }
  apply Forall_cons in Hall as [Hr Hall]. simpl in Hlen.
  cbn [forest_of_records map].
  destruct (take_while_all (λ x, depth r <? depth x) [] rs) as [Ht Hd].
  - constructor.
  - destruct Hall as [|y rs Hy _]; [done|]. apply Nat.ltb_ge. lia.
  - cbn [app] in Ht, Hd. rewrite Ht, Hd. f_equal.
    + by destruct fuel.
    + apply (IH rs d); [lia | done].
Qed.

(** X3. Records that all have the same depth are siblings: the builder
    returns them as top-level comments in order, none with a [replies]
    property. *)
Theorem X3_same_depth_siblings (rs : list RawComment) (d : nat) :
  Forall (λ r, depth r = d) rs →
  build_comments rs
  = Some (map (λ r, mkComment (raw_name r) (raw_message r) None) rs).
Proof.
  intros Hall. rewrite build_comments_forest.
  rewrite (forest_same_depth _ rs d) by done.
  by rewrite map_map.
Qed.

Lemma X3_same_depth_siblings_witness :
  build_comments [mkRaw "A" "a" 4; mkRaw "B" "b" 4; mkRaw "C" "c" 4]
  = Some [mkComment "A" "a" None; mkComment "B" "b" None;
          mkComment "C" "c" None].
Proof.
  apply (X3_same_depth_siblings
           [mkRaw "A" "a" 4; mkRaw "B" "b" 4; mkRaw "C" "c" 4] 4).
  repeat constructor.
Defined.

(** X4. The strip pass finds nothing to strip: the nesting loop creates a
    [replies] array only when it pushes a reply onto it, so on the store
    it leaves behind [removeEmptyReplies] terminates and changes no
    object. *)
Theorem X4_strip_changes_nothing (rs : list RawComment) :
  removeEmptyReplies (S (length rs)) (store (nest rs))
                     (nestedComments (nest rs))
  = Some (store (nest rs)).
Proof.
  destruct (nest_layout rs) as [stack ->]. cbn [store nestedComments].
  set (ks := forest_of_records _ _).
  assert (Hsize : forest_size ks = length rs) by (by apply forest_size_records).
  clearbody ks.
  pose proof (strip_layout (S (length rs)) ks [] []) as Hstrip.
  cbn [app] in Hstrip. change (length (@nil CommentObject)) with 0 in Hstrip.
  rewrite app_nil_r in Hstrip. apply Hstrip. lia.
Qed.

(** *** The stack *)

Lemma shallower_tail e stack : shallower (e :: stack) → shallower stack.
Proof. destruct e, stack as [|[? ?] ?]; [done|]. by intros [_ H]. Qed.

Lemma pop_while_shallower d stack :
  shallower stack →
  shallower (pop_while d stack) ∧
  match pop_while d stack with
  | (_, d') :: _ => d' < d
  | [] => True
  end.
Proof.
  induction stack as [|[o d'] stack IH]; [done|]. intros Hs.
  cbn [pop_while]. destruct (Nat.leb_spec d d').
  - apply IH. by apply shallower_tail in Hs.
  - done.
Qed.

Lemma step_shallower st o d :
  shallower (commentStack st) →
  shallower (commentStack (step st (o, d))).
Proof.
  intros Hs. unfold step.
  destruct (pop_while_shallower d (commentStack st) Hs) as [Hp Hd].
  destruct (pop_while d (commentStack st)) as [|[p dp] rest]; [done|].
  cbn [commentStack]. done.
Qed.

Lemma step_top st o d : hd_error (commentStack (step st (o, d))) = Some (o, d).
Proof.
  unfold step. by destruct (pop_while d (commentStack st)) as [|[p dp] rest].
Qed.

Lemma fold_step_shallower items : ∀ st,
  shallower (commentStack st) →
  shallower (commentStack (fold_left step items st)).
Proof.
  induction items as [|[o d] items IH]; intros st Hs; [done|].
  cbn [fold_left]. by apply IH, step_shallower.
Qed.

(** X5. The stack of the nesting loop is a chain of strict ancestors:
    after the loop, as after every iteration, its depths strictly decrease
    from the top down, and its top is the record processed last. *)
Theorem X5_stack_is_an_ancestor_chain :
  (∀ rs, shallower (commentStack (nest rs))) ∧
  (∀ rs r, hd_error (commentStack (nest (rs ++ [r])))
           = Some (length rs, depth r)).
Proof.
  split.
  - intros rs. unfold nest. by apply fold_step_shallower.
  - intros rs r. unfold nest.
    rewrite items_from_app, fold_left_app. cbn [items_from fold_left].
    by rewrite step_top.
Qed.

(** *** Flattening an arbitrary tree *)

Lemma comment_ind (P : Comment → Prop) :
  (∀ n m, P (mkComment n m None)) →
  (∀ n m cs, Forall P cs → P (mkComment n m (Some cs))) →
  ∀ c, P c.
Proof.
  intros Hleaf Hnode. fix IH 1. intros [n m [cs|]]; [|apply Hleaf].
  apply Hnode. induction cs as [|c cs IHcs]; constructor; [apply IH | exact IHcs].
Qed.

Lemma flatten_comment_replies n m cs lvl :
  flatten_comment lvl (mkComment n m (Some cs))
  = mkFlat (mkComment n m (Some cs)) lvl
    :: flat_map (flatten_comment (S lvl)) cs.
Proof. by destruct cs. Qed.

Lemma length_flatten_comment c : ∀ lvl,
  length (flatten_comment lvl c) = count_comments c.
Proof.
  induction c as [n m|n m cs IH] using comment_ind; intros lvl; [done|].
  rewrite flatten_comment_replies. cbn [length count_comments c_replies].
  f_equal. induction IH as [|c cs Hc _ IHcs]; [done|].
  cbn [flat_map map list_sum]. rewrite length_app, Hc, IHcs. done.
Qed.

(** X6. Flattening lists every comment of the forest exactly once: the
    flattened list is as long as the number of comments, replies at every
    level included. *)
Theorem X6_flatten_counts_every_comment (comments : list Comment) (lvl : nat) :
  length (flattenComments comments lvl)
  = list_sum (map count_comments comments).
Proof.
  unfold flattenComments.
  induction comments as [|c cs IH]; [done|].
  cbn [flat_map map list_sum].
  rewrite length_app, length_flatten_comment, IH. done.
Qed.

Lemma climbs_join (a b : list nat) d :
  climbs a → climbs b → Forall (λ x, d ≤ x) a →
  match b with [] => True | y :: _ => y = d end →
  climbs (a ++ b).
Proof.
  intros Ha Hb Hall Hhead. induction a as [|x a IH]; [done|].
  apply Forall_cons in Hall as [Hx Hall].
  destruct a as [|y a].
  - cbn [app]. destruct b as [|z b]; [done|]. subst z.
    split; [lia | done].
  - destruct Ha as [Hxy Ha]. cbn [app climbs]. split; [done|].
    by apply IH.
Qed.

Lemma levels_flat_map cs :
  Forall (λ c, ∀ lvl, levels_ok lvl (map level (flatten_comment lvl c))) cs →
  ∀ lvl, levels_ok lvl (map level (flat_map (flatten_comment lvl) cs)).
Proof.
  induction 1 as [|c cs Hc _ IH]; intros lvl; [by repeat split|].
  cbn [flat_map]. rewrite map_app.
  destruct (Hc lvl) as (Hall1 & Hhead1 & Hclimb1).
  destruct (IH lvl) as (Hall2 & Hhead2 & Hclimb2).
  split; [by apply Forall_app|]. split.
  - destruct c as [n m r]. cbn [flatten_comment map app level] in *. done.
  - by apply (climbs_join _ _ lvl).
Qed.

Lemma levels_flatten_comment c : ∀ lvl,
  levels_ok lvl (map level (flatten_comment lvl c)).
Proof.
  induction c as [n m|n m cs IH] using comment_ind; intros lvl.
  - by repeat split; repeat constructor.
  - rewrite flatten_comment_replies. cbn [map level].
    destruct (levels_flat_map cs IH (S lvl)) as (Hall & Hhead & Hclimb).
    split; [|split; [done|]].
    + constructor; [done|]. eapply Forall_impl; [exact Hall|].
      simpl. intros; lia.
    + destruct (map level (flat_map (flatten_comment (S lvl)) cs)) as [|y l];
        [done|]. subst y. split; [lia | done].
Qed.

(** X7. The levels of a flattened forest form a pre-order walk: no level
    is below the starting level, the first comment is at the starting
    level, and from one comment to the next the level rises by at most
    one. *)
Theorem X7_flatten_levels_walk (comments : list Comment) (lvl : nat) :
  levels_ok lvl (map level (flattenComments comments lvl)).
Proof.
  apply levels_flat_map, Forall_forall. intros c _.
  apply levels_flatten_comment.
Qed.

End TreeExtras.

(** ** Further properties of the viewer *)

Module ViewerExtras.
Import Tree Viewer ViewerFacts.

Lemma updateOverlayComments_eq st :
  in_range st →
  updateOverlayComments st
  = Some (mkViewer (flatCommentList st) (currentCommentIndex st)
                   (commentsContainer st)
                   (overlay_for (flatCommentList st) (currentCommentIndex st))
                   (commentCounter st)).
Proof.
  intros Hr. unfold in_range in Hr.
  unfold updateOverlayComments, overlay_for.
  destruct (Z.eqb_spec (currentCommentIndex st) 0); [done|].
  destruct (at_index_in_range (flatCommentList st) (currentCommentIndex st - 1))
    as [c ->]; [lia | done].
Qed.

Lemma handleNextComment_eq renders st c :
  in_range st →
  at_index (flatCommentList st) (currentCommentIndex st) = Some c →
  renders c = true →
  handleNextComment renders st
  = Returns (mkViewer (flatCommentList st) (currentCommentIndex st + 1)
               (commentsContainer st ++ [c])
               (overlay_for (flatCommentList st) (currentCommentIndex st + 1))
               (Some (currentCommentIndex st + 1)%Z)).
Proof.
  intros Hr Hc Hok. unfold in_range in Hr. unfold handleNextComment.
  pose proof (at_index_bound _ _ _ Hc) as Hlt.
  destruct (Z.ltb_spec (currentCommentIndex st)
              (Z.of_nat (length (flatCommentList st)))); [|lia].
  rewrite Hc, Hok, updateOverlayComments_eq; [done|].
  unfold in_range. simpl. lia.
Qed.

Lemma handleNextComment_throws renders st c :
  at_index (flatCommentList st) (currentCommentIndex st) = Some c →
  renders c = false →
  handleNextComment renders st = Throws.
Proof.
  intros Hc Hno. unfold handleNextComment.
  pose proof (at_index_bound _ _ _ Hc) as Hlt.
  destruct (Z.ltb_spec (currentCommentIndex st)
              (Z.of_nat (length (flatCommentList st)))); [|lia].
  by rewrite Hc, Hno.
Qed.

Lemma handlePreviousComment_eq st :
  in_range st →
  (0 < currentCommentIndex st)%Z →
  handlePreviousComment st
  = Some (mkViewer (flatCommentList st) (currentCommentIndex st - 1)
            (removelast (commentsContainer st))
            (overlay_for (flatCommentList st) (currentCommentIndex st - 1))
            (Some (currentCommentIndex st - 1)%Z)).
Proof.
  intros Hr Hlt. unfold in_range in Hr. unfold handlePreviousComment.
  destruct (Z.ltb_spec 0 (currentCommentIndex st)); [|lia].
  rewrite updateOverlayComments_eq; [done|].
  unfold in_range. simpl. lia.
Qed.

Lemma take_next (flat : list FlatComment) (i : Z) :
  (0 ≤ i < Z.of_nat (length flat))%Z →
  take (Z.to_nat (i + 1)) flat
  = take (Z.to_nat i) flat ++ option_list (at_index flat i).
Proof.
  intros Hi. destruct (at_index_in_range flat i Hi) as [c Hc].
  rewrite Hc. unfold at_index in Hc.
  destruct (Z.ltb_spec i 0); [lia|].
  replace (Z.to_nat (i + 1)) with (S (Z.to_nat i)) by lia.
  by apply take_S_r.
Qed.

(** What one event does to a page whose index is in range: a forward step
    on a comment that cannot be created throws; any other step returns,
    and moves the index by one or, at an end of the list, not at all. *)
Lemma handle_cases renders s st :
  in_range st →
  (handle renders s st = Throws ∧
   ∃ c, at_index (flatCommentList st) (currentCommentIndex st) = Some c ∧
        renders c = false) ∨
  ∃ st', handle renders s st = Returns st' ∧
         flatCommentList st' = flatCommentList st ∧ in_range st' ∧
         (currentCommentIndex st' - 1 ≤ currentCommentIndex st)%Z ∧
         ((currentCommentIndex st < currentCommentIndex st')%Z →
          ∃ c, at_index (flatCommentList st) (currentCommentIndex st) = Some c ∧
               renders c = true).
Proof.
  intros Hr. pose proof Hr as Hr'. unfold in_range in Hr'.
  destruct s; cbn [handle].
  - destruct (Z.lt_ge_cases (currentCommentIndex st)
                (Z.of_nat (length (flatCommentList st)))) as [Hlt|Hge].
    + destruct (at_index_in_range (flatCommentList st) (currentCommentIndex st))
        as [c Hc]; [lia|].
      destruct (renders c) eqn:Hok.
      * right. rewrite (handleNextComment_eq renders st c Hr Hc Hok).
        eexists. split; [done|]. cbn. split; [done|].
        split; [unfold in_range; cbn; lia|]. split; [lia|]. by exists c.
      * left. split; [by apply (handleNextComment_throws renders st c)|].
        by exists c.
    + right. exists st. unfold handleNextComment.
      destruct (Z.ltb_spec (currentCommentIndex st)
                  (Z.of_nat (length (flatCommentList st)))); [lia|].
      split; [done|]. split; [done|]. split; [done|]. split; lia.
  - right. destruct (Z.lt_ge_cases 0 (currentCommentIndex st)) as [Hlt|Hge].
    + rewrite handlePreviousComment_eq by done.
      eexists. split; [done|]. cbn. split; [done|].
      split; [unfold in_range; cbn; lia|]. split; lia.
    + exists st. unfold handlePreviousComment.
      destruct (Z.ltb_spec 0 (currentCommentIndex st)); [lia|].
      split; [done|]. split; [done|]. split; [done|]. split; lia.
Qed.

Lemma handleNextComment_revealed renders st st' :
  in_range st → revealed st → handleNextComment renders st = Returns st' →
  revealed st'.
Proof.
  intros Hr [Hshown Hover] Hnext.
  destruct (Z.lt_ge_cases (currentCommentIndex st)
              (Z.of_nat (length (flatCommentList st)))) as [Hlt|Hge].
  - unfold in_range in Hr.
    destruct (at_index_in_range (flatCommentList st) (currentCommentIndex st))
      as [c Hc]; [lia|].
    destruct (renders c) eqn:Hok.
    + rewrite (handleNextComment_eq renders st c) in Hnext by done.
      injection Hnext as <-. split; [|done]. cbn.
      rewrite Hshown, take_next, Hc by lia. done.
    + by rewrite (handleNextComment_throws renders st c) in Hnext.
  - unfold handleNextComment in Hnext.
    destruct (Z.ltb_spec (currentCommentIndex st)
                (Z.of_nat (length (flatCommentList st)))); [lia|].
    by injection Hnext as <-.
Qed.

Lemma handlePreviousComment_revealed st st' :
  in_range st → revealed st → handlePreviousComment st = Some st' →
  revealed st'.
Proof.
  intros Hr [Hshown Hover] Hprev.
  destruct (Z.lt_ge_cases 0 (currentCommentIndex st)) as [Hlt|Hge].
  - rewrite handlePreviousComment_eq in Hprev by done.
    injection Hprev as <-. split; [|done]. cbn.
    rewrite Hshown. unfold in_range in Hr.
    replace (Z.to_nat (currentCommentIndex st))
      with (Z.to_nat (currentCommentIndex st - 1 + 1)) by lia.
    rewrite take_next by lia.
    destruct (at_index_in_range (flatCommentList st)
                (currentCommentIndex st - 1)) as [c ->]; [lia|].
    apply removelast_last.
  - unfold handlePreviousComment in Hprev.
    destruct (Z.ltb_spec 0 (currentCommentIndex st)); [lia|].
    by injection Hprev as <-.
Qed.

Lemma run_revealed renders steps : ∀ st,
  in_range st → revealed st →
  ∃ st', run renders steps st = Some st' ∧
         flatCommentList st' = flatCommentList st ∧
         in_range st' ∧ revealed st'.
Proof.
  induction steps as [|s steps IH]; intros st Hr Hshown; [by exists st|].
  cbn [run].
  destruct (handle_in_range renders s st Hr)
    as [-> | (st1 & Hstep & Hflat1 & Hr1)]; [by apply IH|].
  assert (revealed st1) as Hshown1.
  { destruct s; cbn [handle] in Hstep.
    - exact (handleNextComment_revealed renders st st1 Hr Hshown Hstep).
    - destruct (handlePreviousComment st) as [st2|] eqn:Hprev; [|done].
      injection Hstep as ->.
      exact (handlePreviousComment_revealed st st1 Hr Hshown Hprev). }
  rewrite Hstep.
  destruct (IH st1 Hr1 Hshown1) as (st' & Hrun & Hflat & Hr' & Hshown').
  exists st'. split; [done|]. split; [congruence|]. by split.
Qed.

(** X8. The page always shows what the index says. After any sequence of
    forward and backward steps from the loaded state, whichever comments
    [createCommentElement] fails on, the sidebar holds exactly the first
    [currentCommentIndex] comments of the flattened list, in order, and
    the overlay holds the last of them and nothing else (nothing at
    index 0). *)
Theorem X8_page_matches_index (renders : FlatComment → bool)
    (postComments : list Comment) (steps : list Step) :
  ∃ st,
    run renders steps (loaded postComments) = Some st ∧
    commentsContainer st
    = take (Z.to_nat (currentCommentIndex st)) (flattenComments postComments 0) ∧
    overlayCommentsContainer st
    = overlay_for (flattenComments postComments 0) (currentCommentIndex st).
Proof.
  destruct (run_revealed renders steps (loaded postComments))
    as (st & Hrun & Hflat & _ & Hshown & Hover).
  - unfold in_range, loaded. simpl. lia.
  - by split.
  - exists st. rewrite Hflat in Hshown, Hover. done.
Qed.

(** X9. Where [createCommentElement] returns, a backward step undoes a
    forward step and a forward step undoes a backward step. On a page that
    shows what its index says, stepping forward onto a comment whose
    element can be created and then back, or back and then forward again
    onto the comment just hidden when its element can be created, gives
    the same flattened list, index, sidebar and overlay again; only the
    counter text is rewritten with the index. A forward step onto a
    comment whose element cannot be created throws and changes nothing. *)
Theorem X9_steps_undo_each_other
    (renders : FlatComment → bool) (st : ViewerState) :
  in_range st → revealed st →
  (∀ c, at_index (flatCommentList st) (currentCommentIndex st) = Some c →
        renders c = true →
        ∃ st1, handleNextComment renders st = Returns st1 ∧
               handlePreviousComment st1 = Some (updateCommentCounter st)) ∧
  (∀ c, at_index (flatCommentList st) (currentCommentIndex st - 1) = Some c →
        renders c = true →
        ∃ st1, handlePreviousComment st = Some st1 ∧
               handleNextComment renders st1
               = Returns (updateCommentCounter st)) ∧
  (∀ c, at_index (flatCommentList st) (currentCommentIndex st) = Some c →
        renders c = false →
        handleNextComment renders st = Throws).
Proof.
  intros Hr [Hshown Hover]. pose proof Hr as Hr'. unfold in_range in Hr'.
  split; [|split]; intros c Hc Hok.
  - pose proof (at_index_bound _ _ _ Hc) as Hlt.
    eexists. split; [by apply (handleNextComment_eq renders st c)|].
    rewrite handlePreviousComment_eq; [|unfold in_range; simpl; lia|simpl; lia].
    cbn. unfold updateCommentCounter.
    rewrite removelast_last, Z.add_simpl_r, <- Hover. done.
  - pose proof (at_index_bound _ _ _ Hc) as Hlt.
    eexists. split; [apply handlePreviousComment_eq; [done | lia]|].
    rewrite (handleNextComment_eq renders _ c);
      [|unfold in_range; simpl; lia | done | done].
    cbn. unfold updateCommentCounter.
    assert (removelast (commentsContainer st) ++ [c] = commentsContainer st)
      as ->.
    { rewrite Hshown.
      replace (Z.to_nat (currentCommentIndex st))
        with (Z.to_nat (currentCommentIndex st - 1 + 1)) by lia.
      rewrite take_next, Hc by lia.
      change (option_list (Some c)) with [c]. by rewrite removelast_last. }
    replace (currentCommentIndex st - 1 + 1)%Z with (currentCommentIndex st)
      by lia.
    by rewrite <- Hover.
  - by apply (handleNextComment_throws renders st c).
Qed.

Lemma X9_steps_undo_each_other_witness :
  (∃ st1,
     handleNextComment (λ c, negb (String.eqb (c_name (flat_comment c)) "<!--"))
                       (loaded [mkComment "A" "a" None]) = Returns st1 ∧
     handlePreviousComment st1
     = Some (updateCommentCounter (loaded [mkComment "A" "a" None]))) ∧
  (∃ st1,
     handlePreviousComment
       (mkViewer [mkFlat (mkComment "A" "a" None) 0] 1
                 [mkFlat (mkComment "A" "a" None) 0]
                 [mkFlat (mkComment "A" "a" None) 0] (Some 1%Z)) = Some st1 ∧
     handleNextComment (λ c, negb (String.eqb (c_name (flat_comment c)) "<!--")) st1
     = Returns (mkViewer [mkFlat (mkComment "A" "a" None) 0] 1
                         [mkFlat (mkComment "A" "a" None) 0]
                         [mkFlat (mkComment "A" "a" None) 0] (Some 1%Z))) ∧
  handleNextComment (λ c, negb (String.eqb (c_name (flat_comment c)) "<!--"))
                    (loaded [mkComment "<!--" "a" None]) = Throws.
Proof.
  split; [|split].
  - apply (proj1 (X9_steps_undo_each_other _ (loaded [mkComment "A" "a" None])
                    ltac:(unfold in_range; simpl; lia)
                    ltac:(split; reflexivity))
             (mkFlat (mkComment "A" "a" None) 0)); reflexivity.
  - apply (proj1 (proj2 (X9_steps_undo_each_other _
                    (mkViewer [mkFlat (mkComment "A" "a" None) 0] 1
                       [mkFlat (mkComment "A" "a" None) 0]
                       [mkFlat (mkComment "A" "a" None) 0] (Some 1%Z))
                    ltac:(unfold in_range; simpl; lia)
                    ltac:(split; reflexivity)))
             (mkFlat (mkComment "A" "a" None) 0)); reflexivity.
  - apply (proj2 (proj2 (X9_steps_undo_each_other _
                    (loaded [mkComment "<!--" "a" None])
                    ltac:(unfold in_range; simpl; lia)
                    ltac:(split; reflexivity)))
             (mkFlat (mkComment "<!--" "a" None) 0)); reflexivity.
Defined.

Lemma run_forward renders n : ∀ st,
  in_range st →
  (∀ i c, (currentCommentIndex st ≤ i < currentCommentIndex st + Z.of_nat n)%Z →
          at_index (flatCommentList st) i = Some c → renders c = true) →
  ∃ st', run renders (replicate n Next) st = Some st' ∧
         currentCommentIndex st'
         = Z.min (currentCommentIndex st + Z.of_nat n)
                 (Z.of_nat (length (flatCommentList st))).
Proof.
  induction n as [|n IH]; intros st Hr Hok.
  - exists st. split; [done|]. unfold in_range in Hr. lia.
  - cbn [replicate run handle].
    destruct (Z.lt_ge_cases (currentCommentIndex st)
                (Z.of_nat (length (flatCommentList st)))) as [Hlt|Hge].
    + pose proof Hr as Hr'. unfold in_range in Hr'.
      destruct (at_index_in_range (flatCommentList st) (currentCommentIndex st))
        as [c Hc]; [lia|].
      rewrite (handleNextComment_eq renders st c Hr Hc);
        [|apply (Hok (currentCommentIndex st)); [lia | done]].
      edestruct IH as (st' & -> & Hidx); [| |exists st'; split; [done|]].
      * unfold in_range in *. simpl. lia.
      * cbn. intros i d Hi Hd. apply (Hok i); [lia | done].
      * rewrite Hidx. simpl. lia.
    + unfold handleNextComment.
      destruct (Z.ltb_spec (currentCommentIndex st)
                  (Z.of_nat (length (flatCommentList st)))); [lia|].
      destruct (IH st Hr) as (st' & -> & Hidx).
      { intros i d Hi Hd. apply (Hok i); [lia | done]. }
      exists st'. split; [done|]. unfold in_range in Hr. lia.
Qed.

(** A comment whose element cannot be created is never passed. *)
Lemma run_blocked renders k c steps : ∀ st,
  in_range st →
  at_index (flatCommentList st) k = Some c → renders c = false →
  (currentCommentIndex st ≤ k)%Z →
  ∃ st', run renders steps st = Some st' ∧
         flatCommentList st' = flatCommentList st ∧
         (currentCommentIndex st' ≤ k)%Z.
Proof.
  induction steps as [|s steps IH]; intros st Hr Hc Hno Hle;
    [by exists st|].
  cbn [run].
  destruct (handle_cases renders s st Hr)
    as [[-> _] | (st1 & -> & Hflat1 & Hr1 & Hstep & Hup)]; [by apply IH|].
  destruct (IH st1 Hr1) as (st' & Hrun & Hflat & Hle').
  - by rewrite Hflat1.
  - done.
  - destruct (Z.lt_ge_cases (currentCommentIndex st) (currentCommentIndex st1))
      as [Hlt|Hge]; [|lia].
    destruct (Hup Hlt) as (d & Hd & Hok).
    destruct (Z.eq_dec (currentCommentIndex st) k) as [Heq|Hne]; [|lia].
    rewrite Heq in Hd. congruence.
  - exists st'. split; [done|]. split; [congruence | done].
Qed.

(** X10. Stepping forward [n] times from the loaded state, when
    [createCommentElement] returns on each of the first [n] comments of
    the flattened list, reveals exactly these, all of the list once [n]
    reaches its length; the index stops at the length. A comment on which
    [createCommentElement] throws is never passed: under every sequence
    of steps the index stays at or before its position. *)
Theorem X10_forward_steps_reveal_in_order
    (renders : FlatComment → bool) (postComments : list Comment) :
  (∀ n, Forall (λ c, renders c = true)
               (take n (flattenComments postComments 0)) →
        ∃ st,
          run renders (replicate n Next) (loaded postComments) = Some st ∧
          currentCommentIndex st
          = Z.of_nat (n `min` length (flattenComments postComments 0)) ∧
          commentsContainer st = take n (flattenComments postComments 0)) ∧
  (∀ k c steps,
     flattenComments postComments 0 !! k = Some c → renders c = false →
     ∃ st, run renders steps (loaded postComments) = Some st ∧
           (currentCommentIndex st ≤ Z.of_nat k)%Z).
Proof.
  split.
  - intros n Hok.
    destruct (run_forward renders n (loaded postComments)) as (st & Hrun & Hidx).
    { unfold in_range, loaded. simpl. lia. }
    { cbn. intros i c Hi Hc. unfold at_index in Hc.
      destruct (Z.ltb_spec i 0); [lia|].
      rewrite Forall_lookup in Hok. apply (Hok (Z.to_nat i)).
      rewrite lookup_take_lt by lia. done. }
    destruct (run_revealed renders (replicate n Next) (loaded postComments))
      as (st' & Hrun' & Hflat & _ & Hshown & _).
    { unfold in_range, loaded. simpl. lia. }
    { by split. }
    rewrite Hrun in Hrun'. injection Hrun' as <-.
    exists st. split; [done|]. cbn in Hidx, Hflat. rewrite Hflat in Hshown.
    split; [lia|]. rewrite Hshown, Hidx.
    destruct (Nat.le_gt_cases n (length (flattenComments postComments 0))).
    + f_equal. lia.
    + rewrite !take_ge; [done | lia | lia].
  - intros k c steps Hc Hno.
    destruct (run_blocked renders (Z.of_nat k) c steps (loaded postComments))
      as (st & Hrun & _ & Hle).
    + unfold in_range, loaded. simpl. lia.
    + cbn. unfold at_index. destruct (Z.ltb_spec (Z.of_nat k) 0); [lia|].
      by rewrite Nat2Z.id.
    + done.
    + cbn. lia.
    + by exists st.
Qed.

Lemma X10_forward_steps_reveal_in_order_witness :
  (∃ st,
     run (λ c, negb (String.eqb (c_name (flat_comment c)) "<!--"))
         (replicate 2 Next)
         (loaded [mkComment "A" "a" (Some [mkComment "B" "b" None]);
                  mkComment "<!--" "c" None]) = Some st ∧
     currentCommentIndex st = 2%Z ∧
     commentsContainer st
     = [mkFlat (mkComment "A" "a" (Some [mkComment "B" "b" None])) 0;
        mkFlat (mkComment "B" "b" None) 1]) ∧
  (∃ st,
     run (λ c, negb (String.eqb (c_name (flat_comment c)) "<!--"))
         [Next; Next; Next; Next; Previous; Next; Next]
         (loaded [mkComment "A" "a" (Some [mkComment "B" "b" None]);
                  mkComment "<!--" "c" None]) = Some st ∧
     (currentCommentIndex st ≤ 2)%Z).
Proof.
  split.
  - refine (proj1 (X10_forward_steps_reveal_in_order
                     (λ c, negb (String.eqb (c_name (flat_comment c)) "<!--"))
                     [mkComment "A" "a" (Some [mkComment "B" "b" None]);
                      mkComment "<!--" "c" None]) 2 _).
    repeat constructor.
  - refine (proj2 (X10_forward_steps_reveal_in_order
                     (λ c, negb (String.eqb (c_name (flat_comment c)) "<!--"))
                     [mkComment "A" "a" (Some [mkComment "B" "b" None]);
                      mkComment "<!--" "c" None])
              2%nat (mkFlat (mkComment "<!--" "c" None) 0) _ _ _);
      reflexivity.
Defined.

End ViewerExtras.

(** ** Further properties of the field extractors *)

Module ExtractorExtras.
Import JS Scraper Spacing Measures DateFacts ExtractorFacts.

(** *** The date is never empty *)

Lemma single_char_text s a :
  s ∈ singleCharSpans a → span_textContent s ≠ "".
Proof.
  unfold singleCharSpans. intros Hin.
  apply list_elem_of_In, filter_In in Hin as [_ Hlen].
  intros Hempty. by rewrite Hempty in Hlen.
Qed.

Lemma first_line_head a :
  singleCharSpans a ≠ [] →
  ∃ first rest, first_line a = first :: rest ∧ text first ≠ "".
Proof.
  intros Hne. unfold first_line.
  pose proof (sort_perm compare_glyphs (glyph_of <$> singleCharSpans a)) as Hperm.
  destruct (sort compare_glyphs (glyph_of <$> singleCharSpans a))
    as [|first rest] eqn:Hsort.
  { apply Permutation_nil_l in Hperm. by destruct (singleCharSpans a). }
  cbn [List.filter]. rewrite Z.sub_diag. cbn [Z.abs Z.ltb Z.compare].
  eexists _, _. split; [done|].
  assert (first ∈ glyph_of <$> singleCharSpans a) as Hin.
  { rewrite <- Hperm. by left. }
  apply list_elem_of_fmap in Hin as (s & -> & Hs).
  by apply (single_char_text s a).
Qed.

Lemma scrapePostDate_nonempty (datePermalink : option Anchor) :
  scrapePostDate datePermalink ≠ "".
Proof.
  destruct datePermalink as [a|]; [|done].
  destruct (singleCharSpans a) as [|s ss] eqn:Hspans.
  - unfold scrapePostDate. rewrite Hspans.
    by destruct (trim (anchor_textContent a)).
  - rewrite scrapePostDate_glyphs by (by rewrite Hspans).
    destruct (first_line_head a) as (first & rest & -> & Htext);
      [by rewrite Hspans|].
    cbn [fmap list_fmap spaced]. by destruct (text first).
Qed.

(** X11. The date extractor never returns the empty string: without a
    link, and for a link with no one-character span and only blank text,
    it returns [DATE_NOT_FOUND]; otherwise it returns the link's trimmed
    text or the glyphs of the first line, which start with a non-empty
    glyph. *)
Theorem X11_date_never_empty (datePermalink : option Anchor) :
  scrapePostDate datePermalink ≠ "".
Proof. apply scrapePostDate_nonempty. Qed.

(** *** The location *)

Lemma differs_spec a other : differs a other = true → Some a ≠ other.
Proof.
  destruct other as [o|]; [|done]. cbn [differs].
  intros H [= ->]. by rewrite Nat.eqb_refl in H.
Qed.

Lemma postLocation_nonempty headerDiv datePermalink :
  postLocation (scrapePostAuthorAndMeta headerDiv datePermalink) ≠ "".
Proof.
  destruct headerDiv as [h|]; [|done].
  unfold scrapePostAuthorAndMeta. cbn [postLocation].
  destruct (List.find _ (header_links h)) as [l|] eqn:Hfind; [|done].
  apply find_some in Hfind as [_ Hok].
  apply andb_prop in Hok as [_ Hlen].
  intros Hempty. by rewrite Hempty in Hlen.
Qed.

(** X12. The location is never empty and never taken from the author link
    or the date link: the author/location extractor returns either
    [LOCATION_NOT_FOUND] or the trimmed, non-empty text of a header link
    that is a different element from both. *)
Theorem X12_location_is_another_link
    (headerDiv : option Header) (datePermalink : option Anchor) :
  let found := scrapePostAuthorAndMeta headerDiv datePermalink in
  postLocation found ≠ "" ∧
  (postLocation found = LOCATION_NOT_FOUND ∨
   ∃ h l, headerDiv = Some h ∧ l ∈ header_links h ∧
          postLocation found = trim (link_textContent l) ∧
          Some (link_id l) ≠ link_id <$> header_author_link h ∧
          Some (link_id l) ≠ anchor_id <$> datePermalink).
Proof.
  cbv zeta. split; [apply postLocation_nonempty|].
  destruct headerDiv as [h|]; [|by left].
  unfold scrapePostAuthorAndMeta. cbn [postLocation].
  destruct (List.find _ (header_links h)) as [l|] eqn:Hfind; [|by left].
  apply find_some in Hfind as [Hin Hok].
  apply andb_prop in Hok as [Hok Hlen]. apply andb_prop in Hok as [Ha Hd].
  right. exists h, l. split; [done|]. split; [by apply list_elem_of_In|].
  split; [done|]. split; by apply differs_spec.
Qed.

(** *** The counts *)

Lemma chars_str (l : list ascii) : chars (str l) = l.
Proof. apply String.list_ascii_of_string_of_list_ascii. Qed.

Lemma digit_runs_from_digits l : ∀ cur,
  Forall (λ c, is_digit c = true) cur →
  Forall (λ run, digit_string (chars run)) (digit_runs_from cur l).
Proof.
  assert (Hrun : ∀ c cur, Forall (λ c, is_digit c = true) (c :: cur) →
                          digit_string (chars (str (rev (c :: cur))))).
  { intros c cur Hall. rewrite chars_str. split.
    - cbn [rev]. by destruct (rev cur).
    - by apply Forall_rev. }
  induction l as [|c l IH]; intros cur Hcur; cbn [digit_runs_from].
  - destruct cur as [|d cur]; [constructor|].
    constructor; [by apply Hrun | constructor].
  - destruct (is_digit c) eqn:Hc; [by apply IH; constructor|].
    destruct cur as [|d cur]; [by apply IH|].
    constructor; [by apply Hrun | by apply IH].
Qed.

Lemma digit_value_nonneg c : is_digit c = true → (0 ≤ digit_value c)%Z.
Proof. destruct c as [[] [] [] [] [] [] [] []]; done. Qed.

Lemma digits_value_nonneg l : ∀ acc,
  Forall (λ c, is_digit c = true) l → (0 ≤ acc)%Z →
  (0 ≤ fold_left (λ acc c, 10 * acc + digit_value c) l acc)%Z.
Proof.
  induction l as [|c l IH]; intros acc Hall Hacc; [done|].
  apply Forall_cons in Hall as [Hc Hall]. cbn [fold_left].
  apply IH; [done|]. pose proof (digit_value_nonneg c Hc). lia.
Qed.

Lemma digit_no_sign d (ds : list ascii) :
  is_digit d = true →
  match d :: ds with
  | "-"%char :: l' => (true, l')
  | "+"%char :: l' => (false, l')
  | _ => (false, d :: ds)
  end = (false, d :: ds).
Proof. destruct d as [[] [] [] [] [] [] [] []]; done. Qed.

Lemma digit_not_space d : is_digit d = true → is_space d = false.
Proof. destruct d as [[] [] [] [] [] [] [] []]; done. Qed.

Lemma take_while_Forall_id {A} (p : A → bool) l :
  Forall (λ x, p x = true) l → take_while p l = l.
Proof.
  induction 1 as [|x l Hx _ IH]; [done|]. cbn [take_while]. by rewrite Hx, IH.
Qed.

(** The Number of a non-negative integer is not negative. *)
Lemma nearest_double_not_negative n :
  (0 ≤ n)%Z → not_negative (nearest_double n).
Proof.
  intros Hn. unfold nearest_double.
  destruct (n <? 2 ^ 53)%Z; [done|].
  set (e := (Z.log2 n - 52)%Z).
  set (q := Z.shiftr n e).
  set (q' := if _ : bool then (q + 1)%Z else q).
  assert (0 ≤ q)%Z as Hq by (by apply Z.shiftr_nonneg).
  assert (0 ≤ q')%Z as Hq' by (unfold q'; destruct (_ || _); lia).
  destruct (2 ^ 1024 <=? q' * 2 ^ e)%Z; [done|]. cbn.
  pose proof (Z.pow_nonneg 2 e ltac:(lia)). nia.
Qed.

(** [parseInt] of a digit run is not negative. *)
Lemma parseInt_digit_string s :
  digit_string (chars s) → not_negative (parseInt s).
Proof.
  intros [Hne Hall]. unfold parseInt.
  destruct (chars s) as [|d ds]; [done|].
  pose proof Hall as Hall'. apply Forall_cons in Hall' as [Hd _].
  cbn [drop_while]. rewrite (digit_not_space d Hd), (digit_no_sign d ds Hd).
  rewrite take_while_Forall_id by done.
  apply nearest_double_not_negative.
  by apply (digits_value_nonneg (d :: ds) 0 Hall).
Qed.

Lemma or_zero_not_negative x :
  x = NaN ∨ not_negative x → not_negative (or_zero x).
Proof. intros [->|Hx]; [cbn; lia | by destruct x]. Qed.

Lemma count_heuristic_nonneg statsText :
  not_negative (count_heuristic statsText).1 ∧
  not_negative (count_heuristic statsText).2.
Proof.
  assert (not_negative (Num 0)) as Hzero by (cbn; lia).
  unfold count_heuristic, digit_runs.
  pose proof (digit_runs_from_digits (chars statsText) [] (Forall_nil_2 _))
    as Hruns.
  destruct (digit_runs_from [] (chars statsText)) as [|first rest]; [done|].
  apply Forall_cons in Hruns as [Hfirst Hrest].
  pose proof (or_zero_not_negative _
                (or_intror (parseInt_digit_string first Hfirst))) as Hother.
  destruct rest as [|second rest].
  - by destruct (mentions_comment statsText).
  - split; [done|]. cbn [snd].
    assert (digit_string (chars (List.last (second :: rest) first))) as Hlast.
    { rewrite Forall_forall in Hrest. apply Hrest.
      apply list_elem_of_In. destruct (exists_last (l:=second :: rest))
        as (l' & a & ->); [done|]. rewrite last_snoc.
      apply in_or_app. right. by left. }
    apply or_zero_not_negative. right. by apply parseInt_digit_string.
Qed.

Lemma likers_tail_count_class l count :
  likers_tail l = Some count → Forall (λ c, is_count c = true) count.
Proof.
  unfold likers_tail. destruct (starts_with _ l); [|done].
  pose proof (TreeFacts.take_while_Forall is_count (drop 5 l)) as Hall.
  destruct (take_while is_count (drop 5 l)) as [|d ds]; [done|].
  destruct (starts_with _ _); [|done]. by intros [= <-].
Qed.

Lemma likers_group_count_class l : ∀ acc g count,
  likers_group acc l = Some (g, count) →
  Forall (λ c, is_count c = true) count.
Proof.
  induction l as [|c l IH]; intros acc g count; [done|].
  cbn [likers_group]. destruct (is_line_terminator c); [done|].
  destruct (likers_group (c :: acc) l) as [[g' count']|] eqn:Hgroup.
  - intros [= <- <-]. by eapply IH.
  - destruct (likers_tail l) as [count'|] eqn:Htail; [|done].
    intros [= <- <-]. by eapply likers_tail_count_class.
Qed.

Lemma likers_search_count_class l : ∀ g count,
  likers_search l = Some (g, count) →
  Forall (λ c, is_count c = true) count.
Proof.
  induction l as [|c l IH]; intros g count; cbn [likers_search].
  - done.
  - destruct (likers_group [] (c :: l)) as [[g' count']|] eqn:Hgroup.
    + intros [= <- <-]. by eapply likers_group_count_class.
    + apply IH.
Qed.

Lemma count_class_digit c :
  is_count c = true → negb (Ascii.eqb c ","%char) = true → is_digit c = true.
Proof.
  unfold is_count. destruct (is_digit c); [done|]. cbn [orb].
  by intros ->.
Qed.

(** [parseInt] of a comma-stripped count group. *)
Lemma parseInt_strip_commas g :
  Forall (λ c, is_count c = true) (chars g) →
  parseInt (strip_commas g) = NaN ∨ not_negative (parseInt (strip_commas g)).
Proof.
  intros Hall. unfold strip_commas.
  set (kept := List.filter _ (chars g)).
  assert (Forall (λ c, is_digit c = true) kept) as Hdigits.
  { apply Forall_forall. intros c Hc.
    apply list_elem_of_In, filter_In in Hc as [Hc Hcomma].
    apply count_class_digit; [|done].
    rewrite Forall_forall in Hall. by apply Hall, list_elem_of_In. }
  destruct kept as [|d ds] eqn:Hkept; [by left|]. right.
  apply parseInt_digit_string. rewrite chars_str. by split.
Qed.

Lemma totalComments_nonneg statsDiv :
  not_negative (totalComments (scrapeEngagement statsDiv)).
Proof.
  destruct statsDiv as [[statsText likers]|]; [|cbn; lia].
  unfold scrapeEngagement. cbn [stats_innerText stats_likers].
  destruct (count_heuristic_nonneg statsText) as [_ Htotal].
  by destruct (count_heuristic statsText).
Qed.

(** X13. The counts are never negative. A count is read by [parseInt]
    from a run of digits and is the Number nearest to the integer
    written: that integer itself below 2^53, a rounded one above, and
    [Infinity] from 2^1024 on. For every stats container [totalComments]
    is such a number, so neither negative nor [NaN], and [otherCount] is
    such a number or [NaN], the value [parseInt] gives for a count group
    made of commas only; without a likers label [otherCount] is not [NaN]
    either. The stats text "9007199254740993 comments" gives the total
    9007199254740992, and a 1 followed by 309 zeros gives [Infinity]. *)
Theorem X13_counts_never_negative :
  (∀ statsDiv,
     not_negative (totalComments (scrapeEngagement statsDiv)) ∧
     (otherCount (likes (scrapeEngagement statsDiv)) = NaN ∨
      not_negative (otherCount (likes (scrapeEngagement statsDiv))))) ∧
  (∀ statsText,
     not_negative
       (otherCount (likes (scrapeEngagement (Some (mkStats statsText None)))))) ∧
  totalComments
    (scrapeEngagement (Some (mkStats "9007199254740993 comments" None)))
  = Num 9007199254740992 ∧
  totalComments
    (scrapeEngagement (Some (mkStats "1000000000000000000000000000000000000000000000000000000000000000000000000000000000000000000000000000000000000000000000000000000000000000000000000000000000000000000000000000000000000000000000000000000000000000000000000000000000000000000000000000000000000000000000000000000000000000000000000000000000000000000000 comments" None)))
  = Infinity false.
Proof.
  split; [|split; [|split; vm_compute; reflexivity]].
  - intros [[statsText likers]|]; [|by split; [|right]; cbn; lia].
    unfold scrapeEngagement. cbn [stats_innerText stats_likers].
    destruct (count_heuristic_nonneg statsText) as [Hother Htotal].
    destruct (count_heuristic statsText) as [other total].
    cbn [fst snd] in *. cbn [totalComments likes].
    split; [done|].
    unfold likers_override. destruct likers as [innerText|]; [|by right].
    destruct (trim innerText) as [|c t] eqn:Htrim; [by right|].
    destruct (match_likers (String c t)) as [[g1 g2]|] eqn:Hmatch.
    + cbn [otherCount]. apply parseInt_strip_commas.
      unfold match_likers in Hmatch.
      destruct (likers_search (chars (String c t))) as [[l1 l2]|] eqn:Hsearch;
        [|done].
      injection Hmatch as <- <-. rewrite chars_str.
      by eapply likers_search_count_class.
    + destruct (negb (all_digits (String c t))); by right.
  - intros statsText. unfold scrapeEngagement.
    cbn [stats_innerText stats_likers].
    destruct (count_heuristic_nonneg statsText) as [Hother _].
    by destruct (count_heuristic statsText).
Qed.

End ExtractorExtras.

(** ** Further properties of the comment and avatar extractor *)

Module CommentsExtras.
Import JS Tree Scraper Shape Measures TreeFacts AvatarFacts ExtractorFacts.

Lemma visit_article_snd av a : (visit_article av a).2 = parse_article a.
Proof. unfold visit_article. by destruct (parse_article a). Qed.

(** The raw comments are the articles that parse, in document order; the
    avatar bookkeeping has no part in them. *)
Lemma visit_articles_snd l : ∀ av,
  (visit_articles av l).2 = omap parse_article l.
Proof.
  induction l as [|a l IH]; intros av; [done|].
  cbn [visit_articles omap list_omap].
  pose proof (visit_article_snd av a) as Ha.
  destruct (visit_article av a) as [av' r]. cbn [snd] in Ha. subst r.
  specialize (IH av'). destruct (visit_articles av' l) as [av'' rs].
  cbn [snd] in *. subst rs. by destruct (parse_article a).
Qed.

Lemma scrape_comments_eq document commentArticles postAuthorName :
  comments (scrapeCommentsAndAvatars document (Some commentArticles)
              postAuthorName)
  = build_comments (omap parse_article commentArticles).
Proof.
  unfold scrapeCommentsAndAvatars.
  pose proof (visit_articles_snd commentArticles) as Hsnd.
  match goal with
  | |- context [visit_articles ?av commentArticles] => specialize (Hsnd av);
      destruct (visit_articles av commentArticles) as [av1 rs]
  end.
  cbn [snd] in Hsnd. subst rs.
  by destruct (omap parse_article commentArticles).
Qed.

Lemma parse_article_nonempty a raw :
  parse_article a = Some raw → raw_name raw ≠ "" ∧ raw_message raw ≠ "".
Proof.
  unfold parse_article.
  destruct (authorName_of a) as [authorName|]; [|done].
  destruct (art_message a) as [innerText|]; [|done].
  destruct (String.eqb_spec authorName ""); [done|].
  destruct (trim innerText) as [|c t]; [done|].
  by intros [= <-].
Qed.

(** X14. The extractor's tree is made of exactly the comment elements that
    parse: flattened, it lists their author names and trimmed messages in
    document order, and every comment in it has a non-empty name and a
    non-empty message. *)
Theorem X14_tree_lists_parsed_articles
    (document : Scraper.Document) (commentArticles : list Article)
    (postAuthorName : string) :
  ∃ tree,
    comments (scrapeCommentsAndAvatars document (Some commentArticles)
                postAuthorName) = Some tree ∧
    map flat_payload (flattenComments tree 0)
    = map raw_payload (omap parse_article commentArticles) ∧
    Forall (λ f, c_name (flat_comment f) ≠ "" ∧ c_message (flat_comment f) ≠ "")
           (flattenComments tree 0).
Proof.
  set (rs := omap parse_article commentArticles).
  exists (map to_comment (forest_of_records (length rs) rs)).
  assert (Hpayload :
    map flat_payload
        (flattenComments (map to_comment (forest_of_records (length rs) rs)) 0)
    = map raw_payload rs).
  { rewrite TreeExtras.flat_payload_raw, flattenComments_forest.
    by apply TreeExtras.payload_forest_of_records. }
  split; [rewrite scrape_comments_eq; apply build_comments_forest|].
  split; [exact Hpayload|].
  assert (Hraw : Forall (λ pm : string * string, pm.1 ≠ "" ∧ pm.2 ≠ "")
                        (map raw_payload rs)).
  { apply Forall_forall. intros pm Hpm.
    apply list_elem_of_In, in_map_iff in Hpm as (raw & <- & Hraw).
    apply list_elem_of_In, list_elem_of_omap in Hraw as (a & _ & Hparse).
    by apply (parse_article_nonempty a). }
  rewrite <- Hpayload in Hraw.
  apply Forall_forall. intros f Hf. rewrite Forall_forall in Hraw.
  apply (Hraw (flat_payload f)).
  by apply list_elem_of_In, in_map, list_elem_of_In.
Qed.

(** *** Where the avatars come from *)

Lemma assign_lookup key v a k w :
  own (assign key v a) !! k = Some w →
  (k = key ∧ w = v) ∨ own a !! k = Some w.
Proof.
  unfold assign.
  destruct (bool_decide (key = "__proto__") && has_prototype a).
  - destruct v; auto.
  - cbn [own]. destruct (decide (key = k)) as [->|Hne].
    + rewrite lookup_insert_eq. intros [= <-]. by left.
    + rewrite lookup_insert_ne by done. by right.
Qed.

Lemma visit_article_lookup av a k w :
  own (visit_article av a).1 !! k = Some w →
  own av !! k = Some w ∨ offers a k w.
Proof.
  unfold visit_article.
  destruct (parse_article a) as [raw|] eqn:Hparse; [|by left]. cbn [fst].
  destruct (art_avatar a) as [url|] eqn:Havatar; [|by left].
  destruct (truthy (Str url)) eqn:Htruthy; [|by left]. cbn [andb].
  destruct (negb (reads_truthy av (raw_name raw))); [|by left].
  intros Hlookup. apply assign_lookup in Hlookup as [[-> ->]|Hold]; [|by left].
  right. exists raw, url. repeat split; try done.
  intros ->. done.
Qed.

Lemma visit_articles_lookup l : ∀ av k w,
  own (visit_articles av l).1 !! k = Some w →
  own av !! k = Some w ∨ ∃ a, a ∈ l ∧ offers a k w.
Proof.
  induction l as [|a l IH]; intros av k w; [by left|].
  rewrite visit_articles_cons. intros Hlookup.
  apply IH in Hlookup as [Hlookup|(a' & Hin & Hoffer)].
  - apply visit_article_lookup in Hlookup as [Hold|Hoffer]; [by left|].
    right. exists a. split; [by left | done].
  - right. exists a'. split; [by right | done].
Qed.

(** X15. Every entry of the returned avatar map has one of three origins:
    the key "fallback" with the placeholder URL; the post author's name
    with the [xlink:href] of the header image ([null] when the image has
    no such attribute); or the name of a parsed comment with the non-empty
    image URL of a comment by that author. In particular a comment that
    does not parse never contributes an avatar. *)
Theorem X15_avatar_origins
    (document : Scraper.Document) (commentArticles : list Article)
    (postAuthorName k : string) (w : value) :
  own (avatars (scrapeCommentsAndAvatars document (Some commentArticles)
                  postAuthorName)) !! k = Some w →
  (k = "fallback" ∧ w = Str fallback_url) ∨
  (k = postAuthorName ∧
   ∃ href, authorAvatarImage document = Some href ∧
           w = from_option Str Null href) ∨
  (∃ a, a ∈ commentArticles ∧ offers a k w).
Proof.
  intros Hlookup. destruct (decide (k = "fallback")) as [->|Hne].
  - left. split; [done|]. revert Hlookup. unfold scrapeCommentsAndAvatars.
    destruct (visit_articles _ commentArticles) as [av rs].
    destruct rs; cbn [avatars]; rewrite assign_own by done; by intros [= <-].
  - right. rewrite own_result in Hlookup by done.
    apply visit_articles_lookup in Hlookup as [Hinit|Hoffer]; [|by right].
    left. destruct (authorAvatarImage document) as [href|]; [|done].
    destruct (negb _); [|done].
    apply assign_lookup in Hinit as [[-> ->]|Hempty]; [|done].
    split; [done|]. by exists href.
Qed.

Lemma X15_avatar_origins_witness :
  ("Ann" = "fallback" ∧ Str "ann-1.png" = Str fallback_url) ∨
  ("Ann" = "Bob" ∧
   ∃ href, authorAvatarImage (mkDocument None) = Some href ∧
           Str "ann-1.png" = from_option Str Null href) ∨
  (∃ a, a ∈ [mkArticle 1 (Some "Comment by Ann 5 hours ago") (Some "hello")
                       (Some "ann-1.png")] ∧
        offers a "Ann" (Str "ann-1.png")).
Proof.
  apply (X15_avatar_origins (mkDocument None)
           [mkArticle 1 (Some "Comment by Ann 5 hours ago") (Some "hello")
                      (Some "ann-1.png")] "Bob" "Ann" (Str "ann-1.png")).
  vm_compute. reflexivity.
Defined.

(** X16. The post author's avatar comes from the header. When the header
    image is found with a non-empty [xlink:href] and the author was found,
    the returned map holds that URL under the author's name, whatever
    avatars the author's own comments carry (the names "fallback" and
    "__proto__" apart). *)
Theorem X16_header_avatar_is_kept
    (document : Scraper.Document) (commentArticles : list Article)
    (postAuthorName href : string) :
  authorAvatarImage document = Some (Some href) →
  href ≠ "" →
  postAuthorName ≠ AUTHOR_NOT_FOUND →
  postAuthorName ≠ "fallback" →
  postAuthorName ≠ "__proto__" →
  own (avatars (scrapeCommentsAndAvatars document (Some commentArticles)
                  postAuthorName)) !! postAuthorName
  = Some (Str href).
Proof.
  intros Himage Hhref Hfound Hfallback Hproto.
  rewrite own_result by done. rewrite Himage.
  apply String.eqb_neq in Hfound. rewrite Hfound. cbn [negb from_option].
  apply visit_articles_recorded; [done|]. by apply assign_own.
Qed.

Lemma X16_header_avatar_is_kept_witness :
  own (avatars
         (scrapeCommentsAndAvatars (mkDocument (Some (Some "ann-header.png")))
            (Some [mkArticle 1 (Some "Comment by Ann 5 hours ago")
                             (Some "hello") (Some "ann-1.png")])
            "Ann")) !! "Ann"
  = Some (Str "ann-header.png").
Proof.
  apply (X16_header_avatar_is_kept (mkDocument (Some (Some "ann-header.png")))
           [mkArticle 1 (Some "Comment by Ann 5 hours ago") (Some "hello")
                      (Some "ann-1.png")] "Ann" "ann-header.png");
    [reflexivity | discriminate | discriminate | discriminate | discriminate].
Defined.

(** *** The author pattern on a label of the usual form *)

Lemma contains_suffix p (a b : list ascii) :
  contains p (a ++ b) = false → contains p b = false.
Proof.
  induction a as [|x a IH]; [done|]. cbn [app contains].
  intros H. apply orb_false_elim in H as [_ H]. by apply IH.
Qed.

Lemma dots_then_contains p l : dots_then p l = true → contains p l = true.
Proof.
  induction l as [|c l IH]; cbn [dots_then contains].
  - by rewrite !orb_false_r.
  - intros H. apply orb_prop in H as [->|H]; [done|].
    apply andb_prop in H as [_ H]. rewrite (IH H). apply orb_true_r.
Qed.

Lemma author_end_inside c (l tail : list ascii) d rest :
  tail = l ++ " "%char :: d :: rest →
  contains (chars "'s comment") (c :: tail) = false →
  no_space_digit (c :: l) = true →
  author_end (c :: tail) = false.
Proof.
  intros -> Hcontains Hdigit. unfold author_end.
  apply orb_false_intro.
  - destruct (starts_with (chars " to ") (c :: l ++ " "%char :: d :: rest));
      [|done]. cbn [andb].
    destruct (dots_then _ _) eqn:Hdots; [|done].
    apply dots_then_contains in Hdots.
    rewrite <- (take_drop 4 (c :: l ++ " "%char :: d :: rest)) in Hcontains.
    apply contains_suffix in Hcontains. congruence.
  - destruct (Ascii.eqb_spec c " "%char) as [->|Hc].
    + destruct l as [|x l]; [done|]. cbn [app].
      cbn [no_space_digit] in Hdigit. apply andb_prop in Hdigit as [Hx _].
      rewrite Ascii.eqb_refl in Hx. cbn [andb] in Hx.
      by apply negb_true_iff in Hx.
    + destruct c as [[] [] [] [] [] [] [] []]; done.
Qed.

Lemma author_group_name name : ∀ acc d rest,
  Forall (λ c, is_line_terminator c = false) name →
  contains (chars "'s comment") (name ++ " "%char :: d :: rest) = false →
  no_space_digit name = true →
  is_digit d = true →
  author_group acc (name ++ " "%char :: d :: rest) = Some (rev acc ++ name).
Proof.
  induction name as [|c name IH]; intros acc d rest Hlt Hcontains Hdigit Hd.
  - cbn [app author_group].
    assert (author_end (" "%char :: d :: rest) = true) as ->.
    { unfold author_end. apply orb_true_intro. right. exact Hd. }
    by rewrite app_nil_r.
  - apply Forall_cons in Hlt as [Hc Hlt].
    cbn [app author_group].
    rewrite (author_end_inside c name _ d rest eq_refl) by done.
    rewrite Hc, IH; [cbn [rev]; by rewrite <- app_assoc|done|..|done].
    + by apply (contains_suffix _ [c]).
    + cbn [no_space_digit] in Hdigit. by apply andb_prop in Hdigit as [_ ?].
Qed.

Lemma author_search_skip c l :
  starts_with (chars "by ") (c :: l) = false →
  author_search (c :: l) = author_search l.
Proof. intros H. cbn [author_search]. by rewrite H. Qed.

Lemma author_search_hit l g :
  starts_with (chars "by ") l = true →
  author_group [] (drop 3 l) = Some g →
  author_search l = Some g.
Proof. intros H Hg. destruct l; cbn [author_search]; by rewrite H, Hg. Qed.

(** X20. Author names are read off the usual label. For a label
    "Comment by NAME D..." where D is a digit (the start of the
    timestamp), the name has no line break and no space directly followed
    by a digit, and no "'s comment" occurs from the name on, the pattern
    matches with exactly NAME as its group. *)
Theorem X20_author_of_usual_label (name rest : string) (d : ascii) :
  Forall (λ c, is_line_terminator c = false) (chars name) →
  no_space_digit (chars name) = true →
  is_digit d = true →
  contains (chars "'s comment") (chars (name +:+ String " " (String d rest)))
  = false →
  match_author ("Comment by " +:+ name +:+ String " " (String d rest))
  = Some name.
Proof.
  intros Hlt Hdigit Hd Hcontains. unfold match_author.
  rewrite chars_app in Hcontains. rewrite !chars_app.
  change (chars (String " " (String d rest)))
    with (" "%char :: d :: chars rest) in *.
  change (chars "Comment by ") with (chars "Comment " ++ chars "by ").
  rewrite <- app_assoc. cbn [chars String.list_ascii_of_string app].
  rewrite !author_search_skip by reflexivity.
  erewrite author_search_hit; [|reflexivity|].
  - cbn [fmap option_fmap option_map]. f_equal.
    apply ExtractorFacts.str_chars.
  - cbn [drop]. by apply (author_group_name _ []).
Qed.

Lemma X20_author_of_usual_label_witness :
  match_author "Comment by John Doe 5 hours ago" = Some "John Doe".
Proof.
  apply (X20_author_of_usual_label "John Doe" " hours ago" "5"%char);
    [repeat constructor | reflexivity | reflexivity | reflexivity].
Defined.

End CommentsExtras.

(** ** Orientation, the main photo and the assembled record *)

Module PageExtras.
Import JS Tree Scraper Page Shape.

(** [find] returns the first element that passes the test. *)
Lemma find_first {A} (p : A → bool) (l : list A) (x : A) :
  List.find p l = Some x →
  ∃ pre post, l = pre ++ x :: post ∧
              Forall (λ y, p y = false) pre ∧ p x = true.
Proof.
  induction l as [|y l IH]; [done|]. cbn [List.find].
  destruct (p y) eqn:Hy.
  - intros [= ->]. by exists [], l.
  - intros Hfind. destruct (IH Hfind) as (pre & post & -> & Hpre & Hx).
    exists (y :: pre), post. split; [done|]. split; [by constructor | done].
Qed.

(** *** The main photo *)

Lemma first_photo_skipped pre : ∀ rest,
  Forall skipped pre → first_photo (pre ++ rest) = first_photo rest.
Proof.
  induction pre as [|d pre IH]; intros rest Hall; [done|].
  apply Forall_cons in Hall as [[Hd|Hd] Hall];
    cbn [app first_photo]; rewrite Hd.
  - by apply IH.
  - destruct (visible d); by apply IH.
Qed.

Lemma scrapeMainPhoto_nonempty mainDivs : scrapeMainPhoto mainDivs ≠ "".
Proof.
  unfold scrapeMainPhoto. destruct mainDivs as [|d rest]; [done|].
  by destruct (first_photo (d :: rest)) as [[|c s]|].
Qed.

(** X17. The main photo is the image of the first visible main div that
    has one. The extractor never returns the empty string; main divs that
    are hidden or have no image are passed over; if the first remaining
    one has a non-empty [src] that is the result; and when every main div
    is passed over the result is a not-found marker. *)
Theorem X17_main_photo_from_first_visible_div :
  (∀ mainDivs, scrapeMainPhoto mainDivs ≠ "") ∧
  (∀ pre d post src,
     Forall skipped pre → visible d = true → main_image d = Some src →
     src ≠ "" →
     scrapeMainPhoto (pre ++ d :: post) = src) ∧
  (∀ mainDivs,
     Forall skipped mainDivs →
     scrapeMainPhoto mainDivs = PHOTO_URL_NOT_FOUND_NO_MAIN_DIV ∨
     scrapeMainPhoto mainDivs
     = PHOTO_URL_NOT_FOUND_NO_IMAGE_IN_VISIBLE_MAIN_DIV).
Proof.
  split; [exact scrapeMainPhoto_nonempty|]. split.
  - intros pre d post src Hpre Hvisible Himage Hsrc.
    unfold scrapeMainPhoto.
    rewrite first_photo_skipped by done. cbn [first_photo].
    rewrite Hvisible, Himage.
    destruct (pre ++ d :: post) eqn:E; [by destruct pre|].
    by destruct src.
  - intros mainDivs Hall. unfold scrapeMainPhoto.
    destruct mainDivs as [|d rest]; [by left|]. right.
    pose proof (first_photo_skipped (d :: rest) [] Hall) as Hnone.
    rewrite app_nil_r in Hnone. by rewrite Hnone.
Qed.

Lemma X17_main_photo_from_first_visible_div_witness :
  scrapeMainPhoto
    ([mkMainDiv 0 0 (Some "hidden.jpg"); mkMainDiv 600 600 None]
     ++ mkMainDiv 0 480 (Some "photo.jpg") :: [mkMainDiv 10 10 (Some "x.jpg")])
  = "photo.jpg" ∧
  (scrapeMainPhoto [mkMainDiv 0 0 (Some "hidden.jpg")]
   = PHOTO_URL_NOT_FOUND_NO_MAIN_DIV ∨
   scrapeMainPhoto [mkMainDiv 0 0 (Some "hidden.jpg")]
   = PHOTO_URL_NOT_FOUND_NO_IMAGE_IN_VISIBLE_MAIN_DIV).
Proof.
  split.
  - apply (proj1 (proj2 X17_main_photo_from_first_visible_div)).
    + constructor; [by left|]. constructor; [by right|]. constructor.
    + reflexivity.
    + reflexivity.
    + discriminate.
  - apply (proj2 (proj2 X17_main_photo_from_first_visible_div)).
    constructor; [by left | constructor].
Defined.

(** *** Orientation *)

(** X18. What [findCoreContainers] returns is anchored on both sides. When
    it succeeds, the date link is the first link of the complementary
    region whose address contains "/photo/", and the header, stats and
    comments containers are the first, second and fourth of the exactly
    four [DIV] children of one element; that element is an ancestor of the
    first comment article and of the date link, and the nearest such
    ancestor of the article. *)
Theorem X18_containers_share_an_ancestor
    (document : PageView) (core : CoreContainers) :
  findCoreContainers document = Some core →
  ∃ links earlier link later chain nearer ancestor farther spare,
    complementary document = Some links ∧
    links = earlier ++ link :: later ∧
    Forall (λ a, is_photo_link a = false) earlier ∧
    is_photo_link link = true ∧
    datePermalink core = link_anchor link ∧
    firstCommentArticle document = Some chain ∧
    chain = nearer ++ ancestor :: farther ∧
    Forall (λ e, is_common link e = false) nearer ∧
    ancestor_id ancestor ∈ link_ancestors link ∧
    ancestor_divs ancestor
    = [headerDiv core; statsDiv core; spare; commentsDiv core].
Proof.
  unfold findCoreContainers.
  destruct (complementary document) as [links|]; [|done].
  destruct (List.find is_photo_link links) as [link|] eqn:Hlink; [|done].
  destruct (firstCommentArticle document) as [chain|]; [|done].
  destruct (List.find (is_common link) chain) as [ancestor|] eqn:Hanc; [|done].
  apply find_first in Hlink as (earlier & later & -> & Hearlier & Hphoto).
  apply find_first in Hanc as (nearer & farther & -> & Hnearer & Hcommon).
  apply andb_prop in Hcommon as [Hin Hfour].
  apply bool_decide_eq_true in Hin.
  destruct (ancestor_divs ancestor) as [|d0 [|d1 [|d2 [|d3 [|d4 ds]]]]] eqn:Hdivs;
    try done.
  intros [= <-].
  by exists (earlier ++ link :: later), earlier, link, later,
            (nearer ++ ancestor :: farther), nearer, ancestor, farther, d2.
Qed.

Lemma X18_containers_share_an_ancestor_witness :
  let anchor := mkAnchor 5 "8h" [] in
  let block i := mkBlock i (mkHeader None []) (mkStats "" None) [] in
  let link := mkPageLink "https://www.facebook.com/photo/?fbid=1" anchor
                         [4; 3; 2; 1] in
  let document :=
    mkPage (Some [mkPageLink "https://www.facebook.com/ann" anchor [4; 3; 2; 1];
                  link])
           (Some [mkAncestor 9 [block 20];
                  mkAncestor 2 [block 10; block 11; block 12; block 13];
                  mkAncestor 1 []])
           [] (mkDocument None) in
  let core := mkCore (block 10) (block 11) (block 13) anchor in
  ∃ links earlier link later chain nearer ancestor farther spare,
    complementary document = Some links ∧
    links = earlier ++ link :: later ∧
    Forall (λ a, is_photo_link a = false) earlier ∧
    is_photo_link link = true ∧
    datePermalink core = link_anchor link ∧
    firstCommentArticle document = Some chain ∧
    chain = nearer ++ ancestor :: farther ∧
    Forall (λ e, is_common link e = false) nearer ∧
    ancestor_id ancestor ∈ link_ancestors link ∧
    ancestor_divs ancestor
    = [headerDiv core; statsDiv core; spare; commentsDiv core].
Proof.
  cbv zeta. apply X18_containers_share_an_ancestor. reflexivity.
Defined.

(** *** The assembled record *)

Lemma fallback_present document commentArticles postAuthorName :
  own (Scraper.avatars
         (scrapeCommentsAndAvatars document (Some commentArticles)
            postAuthorName)) !! "fallback"
  = Some (Str fallback_url).
Proof.
  unfold scrapeCommentsAndAvatars.
  destruct (visit_articles _ commentArticles) as [av rs].
  destruct rs; cbn [Scraper.avatars]; by apply AvatarFacts.assign_own.
Qed.

(** X19. Every record [runScraper] hands to the exporter is complete. The
    run stops before extraction exactly when orientation fails. Otherwise
    the comments container exists, so the avatar map of the record holds
    the key "fallback" with the placeholder URL; the record has a comment
    tree without empty [replies] arrays; its photo URL, date and location
    are non-empty strings; and its comment total is not negative. *)
Theorem X19_exported_record_is_complete :
  (∀ document, runScraper document = None ↔ findCoreContainers document = None) ∧
  (∀ document record,
     runScraper document = Some record →
     own (avatars record) !! "fallback" = Some (Str fallback_url) ∧
     (∃ tree, comments record = Some tree ∧ Forall no_empty_replies tree) ∧
     mainPhotoUrl record ≠ "" ∧
     postDate record ≠ "" ∧
     postLocation record ≠ "" ∧
     not_negative (totalComments record)).
Proof.
  split.
  - intros document. unfold runScraper.
    by destruct (findCoreContainers document).
  - intros document record. unfold runScraper.
    destruct (findCoreContainers document) as [core|]; [|done].
    intros Hrun. apply (inj Some) in Hrun. subst record.
    cbv beta iota zeta delta [avatars comments mainPhotoUrl postDate
                              postLocation totalComments].
    split; [exact (fallback_present _ _ _)|].
    split; [exact (AvatarFacts.scrape_comments_no_empty _ _ _)|].
    split; [exact (scrapeMainPhoto_nonempty _)|].
    split; [exact (ExtractorExtras.scrapePostDate_nonempty _)|].
    split; [exact (ExtractorExtras.postLocation_nonempty _ _)|].
    exact (ExtractorExtras.totalComments_nonneg _).
Qed.

Lemma X19_exported_record_is_complete_witness :
  let anchor := mkAnchor 5 "8h" [] in
  let block i := mkBlock i (mkHeader None []) (mkStats "" None) [] in
  let document :=
    mkPage (Some [mkPageLink "https://www.facebook.com/photo/?fbid=1" anchor
                             [2; 1]])
           (Some [mkAncestor 2 [block 10; block 11; block 12; block 13]])
           [] (mkDocument None) in
  let record :=
    mkPost PHOTO_URL_NOT_FOUND_NO_MAIN_DIV AUTHOR_NOT_FOUND "8h"
           LOCATION_NOT_FOUND (mkLikes "" (Num 0)) (Num 0)
           (assign "fallback" (Str fallback_url) empty_object) (Some []) in
  own (avatars record) !! "fallback" = Some (Str fallback_url) ∧
  (∃ tree, comments record = Some tree ∧ Forall no_empty_replies tree) ∧
  mainPhotoUrl record ≠ "" ∧
  postDate record ≠ "" ∧
  postLocation record ≠ "" ∧
  not_negative (totalComments record).
Proof.
  cbv zeta.
  apply (proj2 X19_exported_record_is_complete
           (mkPage (Some [mkPageLink "https://www.facebook.com/photo/?fbid=1"
                                     (mkAnchor 5 "8h" []) [2; 1]])
                   (Some [mkAncestor 2
                            [mkBlock 10 (mkHeader None []) (mkStats "" None) [];
                             mkBlock 11 (mkHeader None []) (mkStats "" None) [];
                             mkBlock 12 (mkHeader None []) (mkStats "" None) [];
                             mkBlock 13 (mkHeader None []) (mkStats "" None) []]])
                   [] (mkDocument None))).
  reflexivity.
Defined.

End PageExtras.
